(** * replace_imgui.py: the function-block replacer

    A shallow embedding of the script [replace_imgui.py] and the proofs of
    the properties its specification states.

    The script reads a C++ file as a list of lines, looks for the line that
    carries the signature of [DX12Renderer::RenderImGui], looks for the
    closing brace of that function with a textual heuristic, replaces the
    lines in between by the contents of a second file and writes the result
    back.

    Layout of the development:
    - [PyStr]: Python [str] values as lists of code points, with the string
      methods the script calls ([in], [strip], [startswith], [splitlines]);
    - [Codec]: the [utf-8] and [utf-8-sig] codecs on byte lists;
    - [Replacer]: the script itself, the boundary scan as a loop over the
      enumerated lines and the whole run as a computation on a small file
      system;
    - the theorems, one per property of the specification, and then the
      further properties of the script: how a run ends, what the two ways
      of reading make of the bytes, what the scan reads and what the tests
      on a line accept. *)

From Stdlib Require Import NArith Arith String Ascii Bool Lia List.
From Stdlib Require Import Strings.Byte DecimalString.
Import ListNotations.

(** ** Python strings *)

Module PyStr.

Local Open Scope N_scope.

(** A Python [str] is a sequence of Unicode code points. *)
Definition char := N.
Definition str := list char.

(** String literals of the script, written as Rocq strings. *)
Definition of_string (s : string) : str :=
  map (fun a => N_of_ascii a) (list_ascii_of_string s).

Definition char_eqb (a b : char) : bool := N.eqb a b.

Fixpoint str_eqb (s t : str) : bool :=
  match s, t with
  | [], [] => true
  | a :: s', b :: t' => char_eqb a b && str_eqb s' t'
  | _, _ => false
  end.

(** [str.isspace] on one character: the code points CPython lists in
    [_PyUnicode_IsWhitespace]. *)
Definition is_space (c : char) : bool :=
  ((0x09 <=? c) && (c <=? 0x0D)) || ((0x1C <=? c) && (c <=? 0x20))
  || (c =? 0x85) || (c =? 0xA0) || (c =? 0x1680)
  || ((0x2000 <=? c) && (c <=? 0x200A))
  || (c =? 0x2028) || (c =? 0x2029) || (c =? 0x202F) || (c =? 0x205F)
  || (c =? 0x3000).

(** [s.lstrip()] *)
Fixpoint lstrip (s : str) : str :=
  match s with
  | c :: s' => if is_space c then lstrip s' else s
  | [] => []
  end.

(** [s.rstrip()] *)
Definition rstrip (s : str) : str := rev (lstrip (rev s)).

(** [s.strip()] *)
Definition strip (s : str) : str := rstrip (lstrip s).

(** [s.startswith(p)] *)
Fixpoint startswith (p s : str) : bool :=
  match p, s with
  | [], _ => true
  | a :: p', b :: s' => char_eqb a b && startswith p' s'
  | _ :: _, [] => false
  end.

(** [sub in s] *)
Fixpoint contains (sub s : str) : bool :=
  startswith sub s ||
  match s with
  | [] => false
  | _ :: s' => contains sub s'
  end.

(** The characters at which [str.splitlines] ends a line, carriage return
    apart (it is handled with the line feed that may follow it). *)
Definition is_linebreak (c : char) : bool :=
  (c =? 0x0A) || (c =? 0x0B) || (c =? 0x0C) || (c =? 0x1C) || (c =? 0x1D)
  || (c =? 0x1E) || (c =? 0x85) || (c =? 0x2028) || (c =? 0x2029).

(** [s.splitlines(keepends=True)], with [cur] the characters of the line
    being read, last one first. *)
Fixpoint splitlines_from (cur : str) (s : str) : list str :=
  match s with
  | [] => match cur with [] => [] | _ :: _ => [rev cur] end
  | c :: s' =>
      if c =? 0x0D then
        match s' with
        | d :: s'' =>
            if d =? 0x0A then rev (d :: c :: cur) :: splitlines_from [] s''
            else rev (c :: cur) :: splitlines_from [] s'
        | [] => rev (c :: cur) :: splitlines_from [] s'
        end
      else if is_linebreak c then rev (c :: cur) :: splitlines_from [] s'
      else splitlines_from (c :: cur) s'
  end.

Definition splitlines (s : str) : list str := splitlines_from [] s.

(** [''.join(ls)] *)
Definition join (ls : list str) : str := concat ls.

(** The universal-newlines translation of a text file opened with
    [newline=None]: [\r\n] and a lone [\r] are read as [\n]. *)
Fixpoint universal_newlines (s : str) : str :=
  match s with
  | [] => []
  | c :: s' =>
      if c =? 0x0D then
        match s' with
        | d :: s'' =>
            if d =? 0x0A then 0x0A :: universal_newlines s''
            else 0x0A :: universal_newlines s'
        | [] => 0x0A :: universal_newlines s'
        end
      else c :: universal_newlines s'
  end.

End PyStr.

(** ** The codecs *)

Module Codec.

Import PyStr.
Local Open Scope N_scope.

Definition bytes := list byte.

(** The byte of value [n], for [n] below 256. *)
Definition byte_of (n : N) : byte :=
  match Byte.of_N n with
  | Some b => b
  | None => x00
  end.

(** [codecs.BOM_UTF8] *)
Definition BOM_UTF8 : bytes := [xef; xbb; xbf].

(** The code points a [str] can be encoded from: all of Unicode but the
    surrogates. *)
Definition is_scalar (c : char) : bool :=
  (c <? 0xD800) || ((0xE000 <=? c) && (c <? 0x110000)).

(** The bytes of one code point; [None] is [UnicodeEncodeError]. *)
Definition utf_8_encode_char (c : char) : option bytes :=
  if c <? 0x80 then Some [byte_of c]
  else if c <? 0x800 then
    Some [byte_of (0xC0 + c / 64); byte_of (0x80 + c mod 64)]
  else if c <? 0x10000 then
    if is_scalar c then
      Some [byte_of (0xE0 + c / 4096); byte_of (0x80 + (c / 64) mod 64);
            byte_of (0x80 + c mod 64)]
    else None
  else if c <? 0x110000 then
    Some [byte_of (0xF0 + c / 262144); byte_of (0x80 + (c / 4096) mod 64);
          byte_of (0x80 + (c / 64) mod 64); byte_of (0x80 + c mod 64)]
  else None.

(** [codecs.utf_8_encode(s)] with [errors='strict'] *)
Fixpoint utf_8_encode (s : str) : option bytes :=
  match s with
  | [] => Some []
  | c :: s' =>
      match utf_8_encode_char c, utf_8_encode s' with
      | Some b, Some bs => Some (b ++ bs)
      | _, _ => None
      end
  end.

(** A continuation byte. *)
Definition cont (b : N) : bool := (0x80 <=? b) && (b <? 0xC0).

(** The second byte of a sequence of three or four bytes, whose range
    depends on the first: overlong forms, surrogates and code points above
    U+10FFFF are refused here. *)
Definition second_ok (b0 b1 : N) : bool :=
  if b0 =? 0xE0 then (0xA0 <=? b1) && (b1 <? 0xC0)
  else if b0 =? 0xED then (0x80 <=? b1) && (b1 <? 0xA0)
  else if b0 =? 0xF0 then (0x90 <=? b1) && (b1 <? 0xC0)
  else if b0 =? 0xF4 then (0x80 <=? b1) && (b1 <? 0x90)
  else cont b1.

(** The input ends inside a sequence that is valid so far: an error when
    the decoder is told the input is complete, and otherwise the bytes are
    left undecoded. *)
Definition incomplete (final : bool) : option str :=
  if final then None else Some [].

(** [codecs.utf_8_decode(bs, 'strict', final)]; [None] is
    [UnicodeDecodeError]. *)
Fixpoint utf_8_decode (final : bool) (bs : bytes) : option str :=
  match bs with
  | [] => Some []
  | b0 :: r0 =>
      let n0 := Byte.to_N b0 in
      if n0 <? 0x80 then option_map (cons n0) (utf_8_decode final r0)
      else if n0 <? 0xC2 then None
      else if n0 <? 0xE0 then
        match r0 with
        | [] => incomplete final
        | b1 :: r1 =>
            let n1 := Byte.to_N b1 in
            if cont n1 then
              option_map (cons ((n0 - 0xC0) * 64 + (n1 - 0x80)))
                         (utf_8_decode final r1)
            else None
        end
      else if n0 <? 0xF0 then
        match r0 with
        | [] => incomplete final
        | b1 :: r1 =>
            let n1 := Byte.to_N b1 in
            if second_ok n0 n1 then
              match r1 with
              | [] => incomplete final
              | b2 :: r2 =>
                  let n2 := Byte.to_N b2 in
                  if cont n2 then
                    option_map
                      (cons ((n0 - 0xE0) * 4096 + (n1 - 0x80) * 64
                             + (n2 - 0x80)))
                      (utf_8_decode final r2)
                  else None
              end
            else None
        end
      else if n0 <? 0xF5 then
        match r0 with
        | [] => incomplete final
        | b1 :: r1 =>
            let n1 := Byte.to_N b1 in
            if second_ok n0 n1 then
              match r1 with
              | [] => incomplete final
              | b2 :: r2 =>
                  let n2 := Byte.to_N b2 in
                  if cont n2 then
                    match r2 with
                    | [] => incomplete final
                    | b3 :: r3 =>
                        let n3 := Byte.to_N b3 in
                        if cont n3 then
                          option_map
                            (cons ((n0 - 0xF0) * 262144 + (n1 - 0x80) * 4096
                                   + (n2 - 0x80) * 64 + (n3 - 0x80)))
                            (utf_8_decode final r3)
                        else None
                    end
                  else None
              end
            else None
        end
      else None
  end.

(** Texts made of scalar values. *)
Definition scalars (s : str) : Prop :=
  Forall (fun c => is_scalar c = true) s.

(** The [utf-8-sig] encoder of a stream writer, at its first call: the
    byte-order mark, then the text in UTF-8. *)
Definition utf_8_sig_encode (s : str) : option bytes :=
  option_map (app BOM_UTF8) (utf_8_encode s).

(** The [utf-8-sig] decoder: one leading byte-order mark is skipped when
    there is one. *)
Definition utf_8_sig_decode (final : bool) (bs : bytes) : option str :=
  match bs with
  | b0 :: b1 :: b2 :: rest =>
      if Byte.eqb b0 xef && Byte.eqb b1 xbb && Byte.eqb b2 xbf
      then utf_8_decode final rest
      else utf_8_decode final bs
  | _ => utf_8_decode final bs
  end.

End Codec.

(** ** The script *)

Module Replacer.

Import PyStr Codec.

(** *** Locating the block (lines 11 to 25) *)

(** The two indices the loop assigns, [None] until they are. *)
Record bounds := Bounds {
  start_line : option nat;
  end_line : option nat
}.

(** [line.strip() == '}'] *)
Definition is_lone_brace (line : str) : bool :=
  str_eqb (strip line) (of_string "}").

Section Scan.

(** The substring that marks the start line, and the number of lines the
    closing brace must be beyond it: ['void DX12Renderer::RenderImGui'] and
    [10] in the script, see [locate] below. *)
Variable marker : str.
Variable min_gap : nat.

(** The look-ahead of lines 21 to 23 on the line after the candidate. *)
Definition looks_like_next_item (next : str) : bool :=
  startswith (of_string "//===") (strip next)
  || startswith (of_string "void ") (strip next)
  || str_eqb (strip next) [].

(** The condition the specification puts on the end index [i], for a start
    index [s]: the trimmed line is the closing brace alone, it lies more than
    [min_gap] lines after [s], and the next line exists and is blank, a
    banner comment or a declaration. The loop below does not call it; the
    theorems compare the two. *)
Definition qualifies (lines : list str) (s i : nat) : bool :=
  is_lone_brace (nth i lines [])
  && (s + min_gap <? i)
  && (i + 1 <? length lines)
  && looks_like_next_item (nth (i + 1) lines []).

(** One iteration of the loop of line 15, for the pair [(i, line)]: the new
    values of the two variables, and whether [break] was reached. The
    element [lines[i+1]] is only read when [i + 1 < len(lines)], so that the
    default of [nth] is never returned. *)
Definition loop_body (lines : list str) (i : nat) (line : str) (b : bounds)
  : bounds * bool :=
  let b1 :=
    if contains marker line
    then Bounds (Some i) (end_line b)
    else b in
  match start_line b1, end_line b1 with
  | Some s, None =>
      if is_lone_brace line && (s + min_gap <? i) then
        if (i + 1 <? length lines)
           && looks_like_next_item (nth (i + 1) lines [])
        then (Bounds (Some s) (Some i), true)
        else (b1, false)
      else (b1, false)
  | _, _ => (b1, false)
  end.

(** The loop over [enumerate(lines)], from index [i] on, [rest] being the
    lines not yet visited. *)
Fixpoint for_loop (lines : list str) (i : nat) (rest : list str) (b : bounds)
  : bounds :=
  match rest with
  | [] => b
  | line :: rest' =>
      let (b', brk) := loop_body lines i line b in
      if brk then b' else for_loop lines (S i) rest' b'
  end.

(** Lines 12 to 25. *)
Definition scan (lines : list str) : bounds :=
  for_loop lines 0 lines (Bounds None None).

End Scan.

(** The indices the loop has gone through when it stops, the last one
    included, and those it has gone through without taking them as the end
    index. *)
Definition visited (lines : list str) (r : bounds) (j : nat) : Prop :=
  match end_line r with
  | Some e => j <= e
  | None => j < length lines
  end.

Definition passed (lines : list str) (r : bounds) (j : nat) : Prop :=
  match end_line r with
  | Some e => j < e
  | None => j < length lines
  end.

(** The start index as the specification describes it: the index of the
    first line that contains [marker]. *)
Fixpoint first_marker_from (marker : str) (i : nat) (lines : list str)
  : option nat :=
  match lines with
  | [] => None
  | line :: rest =>
      if contains marker line then Some i
      else first_marker_from marker (S i) rest
  end.

Definition first_marker (marker : str) (lines : list str) : option nat :=
  first_marker_from marker 0 lines.

(** The constants of the script. *)
Definition MARKER : str := of_string "void DX12Renderer::RenderImGui".
Definition MIN_GAP : nat := 10.

Definition locate (lines : list str) : bounds := scan MARKER MIN_GAP lines.

(** *** The run (the whole script) *)

(** The files the script touches and its standard output. A file is its
    contents, [None] when there is no such file. *)
Record world := World {
  target : option bytes;       (* DX12Renderer.cpp *)
  replacement : option bytes;  (* new_imgui.txt *)
  stdout : list string
}.

(** What a run can end with. The first four are the Python exceptions the
    statements of the script raise. [NotFoundError] and [BoundaryError] are
    the error kinds of the specification for a missing start marker and a
    missing end boundary; no statement of the script raises them. *)
Inductive exception :=
| OSError
| UnicodeDecodeError
| UnicodeEncodeError
| TypeError
| NotFoundError
| BoundaryError.

Inductive result (A : Type) :=
| Ok (a : A)
| Raised (e : exception).
Arguments Ok {A} a.
Arguments Raised {A} e.

(** Statements: they change the world and return or raise. *)
Definition M (A : Type) := world -> world * result A.

Definition ret {A} (a : A) : M A := fun w => (w, Ok a).
Definition raise {A} (e : exception) : M A := fun w => (w, Raised e).
Definition bind {A B} (m : M A) (k : A -> M B) : M B :=
  fun w =>
    match m w with
    | (w', Ok a) => k a w'
    | (w', Raised e) => (w', Raised e)
    end.

Notation "x <- m ;; k" := (bind m (fun x => k))
  (at level 61, m at next level, right associativity).
Notation "m ;; k" := (bind m (fun _ => k))
  (at level 61, right associativity).

(** Opening a file for reading and reading all of it. *)
Definition read_all (file : world -> option bytes) : M bytes :=
  fun w =>
    match file w with
    | Some bs => (w, Ok bs)
    | None => (w, Raised OSError)
    end.

(** A decoder or encoder result, with the exception of its failure. *)
Definition or_raise {A} (e : exception) (o : option A) : M A :=
  match o with
  | Some a => ret a
  | None => raise e
  end.

(** [codecs.open(target, 'w', ...)]: the file is created or truncated. *)
Definition open_target_for_writing : M unit :=
  fun w => (World (Some []) (replacement w) (stdout w), Ok tt).

(** Writing bytes at the end of the open target file. *)
Definition write_target (bs : bytes) : M unit :=
  fun w =>
    let old := match target w with Some o => o | None => [] end in
    (World (Some (old ++ bs)) (replacement w) (stdout w), Ok tt).

(** [print(s)] *)
Definition print (s : string) : M unit :=
  fun w => (World (target w) (replacement w) (stdout w ++ [s]), Ok tt).

(** [x + 1] for [x] an [int] or [None] *)
Definition plus_one (x : option nat) : M nat :=
  match x with
  | Some n => ret (n + 1)
  | None => raise TypeError
  end.

(** [str(n)] for a natural number *)
Definition decimal (n : nat) : string :=
  NilEmpty.string_of_uint (Nat.to_uint n).

(** [f.writelines(ls)] on a [utf-8-sig] stream writer: one [write] of the
    joined lines, encoded with the byte-order mark in front. *)
Definition writelines (ls : list str) : M unit :=
  bs <- or_raise UnicodeEncodeError (utf_8_sig_encode (join ls)) ;;
  write_target bs.

(** [l[:x]] for [x] a natural number or [None] *)
Definition slice_to {A} (x : option nat) (l : list A) : list A :=
  match x with
  | Some n => firstn n l
  | None => l
  end.

(** [l[n:]] for [n] a natural number *)
Definition slice_from {A} (n : nat) (l : list A) : list A := skipn n l.

Definition LF : str := of_string (String "010" EmptyString).

(** Line 30:
    [lines[:start_line] + [new_imgui + '\n'] + lines[end_line + 1:]] *)
Definition new_lines (lines : list str) (new_imgui : str) (b : bounds)
  : M (list str) :=
  let before := slice_to (start_line b) lines in
  let unit := [new_imgui ++ LF] in
  e1 <- plus_one (end_line b) ;;
  ret (before ++ unit ++ slice_from e1 lines).

(** The line sequence as the specification describes it: the lines before
    index [s], the replacement with a line feed as one element, the lines
    after index [e]. *)
Definition spliced (lines : list str) (new_imgui : str) (s e : nat)
  : list str :=
  firstn s lines ++ [new_imgui ++ LF] ++ skipn (e + 1) lines.

(** Lines 4 and 5: the target file, opened with [codecs.open] in
    [utf-8-sig], read by [readlines]. A stream reader decodes what it has
    read without knowing that the input ends there and returns
    [data.splitlines(keepends=True)]. *)
Definition readlines_target : M (list str) :=
  raw <- read_all target ;;
  text <- or_raise UnicodeDecodeError (utf_8_sig_decode false raw) ;;
  ret (splitlines text).

(** Lines 8 and 9: the replacement file, opened with [open] in text mode
    and [utf-8], read whole. *)
Definition read_new_imgui : M str :=
  raw <- read_all replacement ;;
  text <- or_raise UnicodeDecodeError (utf_8_decode true raw) ;;
  ret (universal_newlines text).

(** The two messages of lines 27 and 36. *)
Definition found_message (s1 e1 : nat) : string :=
  "Found RenderImGui function from line " ++ decimal s1
  ++ " to " ++ decimal e1.

Definition success_message : string :=
  "Successfully replaced RenderImGui function!".

(** The script, statement by statement. *)
Definition main : M unit :=
  (* lines 4-5 *)
  lines <- readlines_target ;;
  (* lines 8-9 *)
  new_imgui <- read_new_imgui ;;
  (* lines 12-25 *)
  let b := locate lines in
  (* line 27 *)
  s1 <- plus_one (start_line b) ;;
  e1 <- plus_one (end_line b) ;;
  print (found_message s1 e1) ;;
  (* line 30 *)
  nl <- new_lines lines new_imgui b ;;
  (* lines 33-34 *)
  open_target_for_writing ;;
  writelines nl ;;
  (* line 36 *)
  print success_message.

End Replacer.

(** ** Concrete documents *)

Module Examples.

Import PyStr Codec Replacer.

Local Open Scope string_scope.

(** A file as the bytes of a Rocq string, with or without a byte-order
    mark in front. *)
Definition file (s : string) : bytes := list_byte_of_string s.
Definition file_with_BOM (s : string) : bytes :=
  (BOM_UTF8 ++ file s)%list.

(** The function the script looks for, in a small renderer. *)
Definition render_imgui : string :=
"void DX12Renderer::RenderImGui() {
  ImGui::Begin(title);
  if (show_stats) {
    ImGui::Text(fps);
    ImGui::Text(frame_time);
  }

  ImGui::Checkbox(label, &paused);
  ImGui::SliderFloat(gravity, &g, lo, hi);
  ImGui::End();
  ImGui::Render();
  Submit(ImGui::GetDrawData());
}
".

Definition renderer_cpp : string :=
"// DX12Renderer.cpp
" ++ render_imgui ++ "
void DX12Renderer::Present() {
}
".

(** A replacement without the closing line break, as an editor may leave
    it. *)
Definition short_imgui : string :=
"void DX12Renderer::RenderImGui() {
  ImGui::Render();
}".

Definition renderer_world : world :=
  World (Some (file_with_BOM renderer_cpp)) (Some (file short_imgui)) [].

Definition renderer_lines : list str := splitlines (of_string renderer_cpp).

(** The same file, replaced by the function it already has. *)
Definition same_function_world : world :=
  World (Some (file_with_BOM renderer_cpp)) (Some (file render_imgui)) [].

(** A replacement under another name: the marker is not in it. *)
Definition renamed_imgui : string :=
"void DX12Renderer::DrawOverlay() {
  ImGui::Render();
}
".

Definition renamed_world : world :=
  World (Some (file_with_BOM renderer_cpp)) (Some (file renamed_imgui)) [].

(** A comment that quotes the signature, above the function. *)
Definition commented_cpp : string :=
"// void DX12Renderer::RenderImGui draws the overlay
" ++ render_imgui ++ "
".

Definition commented_lines : list str := splitlines (of_string commented_cpp).

(** A file without the function. *)
Definition plain_cpp : string :=
"int main() {
  return 0;
}
".

Definition plain_world : world :=
  World (Some (file plain_cpp)) (Some (file short_imgui)) [].

(** A file in which the function is the last thing: its closing brace is
    the last line. *)
Definition last_function_cpp : string :=
"// DX12Renderer.cpp
" ++ render_imgui.

Definition last_function_world : world :=
  World (Some (file last_function_cpp)) (Some (file short_imgui)) [].

Definition last_function_lines : list str :=
  splitlines (of_string last_function_cpp).

(** The scenario of the specification: the marker ["void Foo"] and no
    minimum distance between the start and the end. *)
Definition foo_lines : list str :=
  map of_string
      ["void Foo() {
"; "  doA();
"; "}
"; "
"; "void Bar() {
"; "}
"].

Definition foo_replacement : str :=
  of_string "void Foo() {
  doB();
}
".

Definition foo_expected : list str :=
  map of_string
      ["void Foo() {
  doB();
}

"; "
"; "void Bar() {
"; "}
"].

End Examples.

(** ** Notions the statements use *)

Module Notions.

Import PyStr Codec.

(** Texts made of white space only: what [strip] reduces to the empty
    string. *)
Definition whitespace (s : str) : Prop :=
  Forall (fun c => is_space c = true) s.

(** The first byte of a UTF-8 sequence of two, three or four bytes. *)
Definition lead_byte (b : byte) : Prop :=
  (0xC2 <= Byte.to_N b < 0xF5)%N.

End Notions.

(** ** More documents *)

Module MoreExamples.

Import PyStr Codec Replacer Examples.

(** Runs without one of the two files. *)
Definition missing_target_world : world :=
  World None (Some (file short_imgui)) [].

Definition missing_replacement_world : world :=
  World (Some (file_with_BOM renderer_cpp)) None [].




(** A target cut in the middle of a character: the first byte of the
    three of a Japanese comment, and nothing after it. *)
Definition truncated_target_world : world :=
  World (Some (file_with_BOM renderer_cpp ++ [xe3]))
        (Some (file short_imgui)) [].

Definition truncated_replacement_world : world :=
  World (Some (file_with_BOM renderer_cpp))
        (Some (file short_imgui ++ [xe3])) [].

(** A replacement saved with Windows line ends. *)
Definition crlf_imgui : bytes :=
  file "void DX12Renderer::RenderImGui() {" ++ [x0d; x0a]
  ++ file "  ImGui::Render();" ++ [x0d; x0a]
  ++ file "}" ++ [x0d; x0a].

Definition crlf_world : world :=
  World (Some (file_with_BOM renderer_cpp)) (Some crlf_imgui) [].

End MoreExamples.

(** * Proofs *)

Import PyStr Codec Replacer Examples.
Import Notions MoreExamples.

(** ** Strings and the boundary scan *)

Lemma str_eqb_eq (s t : str) : str_eqb s t = true <-> s = t.
Proof.
  revert t; induction s as [|a s IH]; intros [|b t]; simpl; split;
    try congruence; try reflexivity.
  - intros H. apply andb_true_iff in H as [H1 H2].
    apply N.eqb_eq in H1. apply IH in H2. congruence.
  - intros H. injection H as -> ->. apply andb_true_iff. split.
    + apply N.eqb_refl.
    + now apply IH.
Qed.

Section ScanFacts.

Variable marker : str.
Variable min_gap : nat.

(** What one iteration does, when [end_line] is still unset. *)
Lemma loop_body_spec (lines : list str) (i : nat) (line : str) (b : bounds) :
  end_line b = None ->
  nth i lines [] = line ->
  let cur := if contains marker line then Some i else start_line b in
  match loop_body marker min_gap lines i line b with
  | (b', true) =>
      exists s, cur = Some s /\ b' = Bounds (Some s) (Some i)
                /\ qualifies min_gap lines s i = true
  | (b', false) =>
      b' = Bounds cur None
      /\ forall s, cur = Some s -> qualifies min_gap lines s i = false
  end.
Proof.
  intros Hend Hnth. unfold loop_body, qualifies. rewrite Hnth.
  destruct b as [sl el]; simpl in *; subst el.
  destruct (contains marker line); simpl.
  - destruct (is_lone_brace line && (i + min_gap <? i)) eqn:E1;
      [destruct ((i + 1 <? length lines)
                 && looks_like_next_item (nth (i + 1) lines [])) eqn:E2|].
    + exists i. rewrite <- andb_assoc, E1, E2. auto.
    + split; [reflexivity|]. intros s [= <-].
      rewrite <- andb_assoc, E1, E2. reflexivity.
    + split; [reflexivity|]. intros s [= <-].
      rewrite <- !andb_assoc, andb_assoc, E1. reflexivity.
  - destruct sl as [s|]; simpl.
    + destruct (is_lone_brace line && (s + min_gap <? i)) eqn:E1;
        [destruct ((i + 1 <? length lines)
                   && looks_like_next_item (nth (i + 1) lines [])) eqn:E2|].
      * exists s. rewrite <- andb_assoc, E1, E2. auto.
      * split; [reflexivity|]. intros s' [= <-].
        rewrite <- andb_assoc, E1, E2. reflexivity.
      * split; [reflexivity|]. intros s' [= <-].
        rewrite <- !andb_assoc, andb_assoc, E1. reflexivity.
    + split; [reflexivity|]. discriminate.
Qed.

Lemma for_loop_spec (lines : list str) :
  forall (rest pre : list str) (b : bounds),
    lines = pre ++ rest ->
    end_line b = None ->
    let r := for_loop marker min_gap lines (length pre) rest b in
    ((start_line r = start_line b
      /\ forall j, length pre <= j -> visited lines r j ->
                   contains marker (nth j lines []) = false)
     \/ (exists s, start_line r = Some s /\ length pre <= s < length lines
                   /\ contains marker (nth s lines []) = true
                   /\ forall j, s < j -> visited lines r j ->
                                contains marker (nth j lines []) = false))
    /\ (forall e, end_line r = Some e ->
                  length pre <= e
                  /\ exists s, start_line r = Some s
                               /\ qualifies min_gap lines s e = true)
    /\ (forall s i, start_line r = Some s -> length pre <= i -> s <= i ->
                    passed lines r i ->
                    qualifies min_gap lines s i = false).
Proof.
  induction rest as [|line rest' IH]; intros pre b Hl Hb; simpl.
  - rewrite app_nil_r in Hl. subst pre.
    unfold visited, passed. rewrite Hb. split; [|split].
    + left. split; [reflexivity|]. intros; lia.
    + intros e He. congruence.
    + intros; lia.
  - assert (Hnth : nth (length pre) lines [] = line)
      by (subst lines; apply nth_middle).
    assert (Hlen : length pre < length lines)
      by (subst lines; rewrite length_app; simpl; lia).
    pose proof (loop_body_spec lines (length pre) line b Hb Hnth) as Hbody.
    cbv zeta in Hbody.
    destruct (loop_body marker min_gap lines (length pre) line b)
      as [b' [|]].
    + (* break *)
      destruct Hbody as (s & Hcur & -> & Hq).
      unfold visited, passed; simpl. split; [|split].
      * destruct (contains marker line) eqn:Hm.
        -- right. exists (length pre). injection Hcur as <-.
           repeat split; try lia; try congruence.
        -- left. split; [congruence|].
           intros j H1 H2. assert (j = length pre) as -> by lia.
           congruence.
      * intros e [= <-]. split; [lia | eauto].
      * intros; lia.
    + (* next iteration *)
      destruct Hbody as (-> & Hq).
      specialize (IH (pre ++ [line]) (Bounds
        (if contains marker line then Some (length pre) else start_line b)
        None)).
      rewrite length_app in IH. simpl length in IH.
      replace (length pre + 1) with (S (length pre)) in IH by lia.
      specialize (IH ltac:(rewrite <- app_assoc; exact Hl) eq_refl).
      cbv zeta in IH. simpl start_line in IH.
      set (r := for_loop marker min_gap lines (S (length pre)) rest' _) in *.
      destruct IH as (IH1 & IH2 & IH3).
      assert (Hvis : forall j, visited lines r j -> passed lines r j \/
                               end_line r = Some j).
      { unfold visited, passed. destruct (end_line r); intros j Hj;
          [destruct (Nat.eq_dec j n); [right; congruence | left; lia]
          | now left]. }
      split; [|split].
      * destruct IH1 as [(Hs & Hno) | (s & Hs & Hr & Hm & Hno)].
        -- destruct (contains marker line) eqn:Hm.
           ++ right. exists (length pre). repeat split; try lia;
                try congruence.
              intros j H1 H2. apply Hno; [lia | assumption].
           ++ left. split; [assumption|].
              intros j H1 H2. destruct (Nat.eq_dec j (length pre)) as [->|];
                [congruence | apply Hno; [lia | assumption]].
        -- right. exists s. repeat split; try lia; assumption.
      * intros e He. apply IH2 in He. split; [lia | tauto].
      * intros s i Hs Hi Hsi Hp.
        destruct (Nat.eq_dec i (length pre)) as [->|];
          [|apply IH3; [assumption | lia | assumption | assumption]].
        apply Hq.
        destruct IH1 as [(Hs' & _) | (s' & Hs' & Hr & _)]; [congruence|].
        rewrite Hs in Hs'. injection Hs' as <-. lia.
Qed.

End ScanFacts.

Section ScanResults.

Variable marker : str.
Variable min_gap : nat.

Lemma qualifies_iff (lines : list str) (s i : nat) :
  qualifies min_gap lines s i = true <->
  is_lone_brace (nth i lines []) = true
  /\ s + min_gap < i
  /\ i + 1 < length lines
  /\ looks_like_next_item (nth (i + 1) lines []) = true.
Proof.
  unfold qualifies. rewrite !andb_true_iff, !Nat.ltb_lt. tauto.
Qed.

(** The start index is the last marker line the loop has visited. *)
Lemma scan_start (lines : list str) :
  let r := scan marker min_gap lines in
  (start_line r = None
   /\ forall j, visited lines r j -> contains marker (nth j lines []) = false)
  \/ (exists s, start_line r = Some s /\ s < length lines
                /\ contains marker (nth s lines []) = true
                /\ forall j, s < j -> visited lines r j ->
                             contains marker (nth j lines []) = false).
Proof.
  destruct (for_loop_spec marker min_gap lines lines [] (Bounds None None)
              eq_refl eq_refl) as (H & _).
  simpl in H. unfold scan.
  destruct H as [(H1 & H2) | (s & H1 & H2 & H3 & H4)].
  - left. split; [assumption|]. intros j Hj. apply H2; [lia | assumption].
  - right. exists s. repeat split; try assumption; lia.
Qed.

(** The end index satisfies the condition for the start index. *)
Lemma scan_end (lines : list str) (e : nat) :
  end_line (scan marker min_gap lines) = Some e ->
  exists s, start_line (scan marker min_gap lines) = Some s
            /\ qualifies min_gap lines s e = true.
Proof.
  destruct (for_loop_spec marker min_gap lines lines [] (Bounds None None)
              eq_refl eq_refl) as (_ & H & _).
  intros He. apply H in He. tauto.
Qed.

(** No index before the end index does. *)
Lemma scan_passed (lines : list str) (s i : nat) :
  start_line (scan marker min_gap lines) = Some s ->
  passed lines (scan marker min_gap lines) i ->
  qualifies min_gap lines s i = false.
Proof.
  destruct (for_loop_spec marker min_gap lines lines [] (Bounds None None)
              eq_refl eq_refl) as (_ & _ & H).
  intros Hs Hp. destruct (le_lt_dec s i) as [Hle | Hlt].
  - apply (H s i Hs); simpl; try lia; assumption.
  - destruct (qualifies min_gap lines s i) eqn:E; [|reflexivity].
    apply qualifies_iff in E. lia.
Qed.

(** Beyond the last line nothing qualifies. *)
Lemma qualifies_beyond (lines : list str) (s i : nat) :
  length lines <= i -> qualifies min_gap lines s i = false.
Proof.
  intros Hi. destruct (qualifies min_gap lines s i) eqn:E; [|reflexivity].
  apply qualifies_iff in E. lia.
Qed.

Lemma scan_first_match (lines : list str) (s : nat) :
  start_line (scan marker min_gap lines) = Some s ->
  (forall e, end_line (scan marker min_gap lines) = Some e <->
             (qualifies min_gap lines s e = true
              /\ forall i, i < e -> qualifies min_gap lines s i = false))
  /\ (end_line (scan marker min_gap lines) = None <->
      forall i, qualifies min_gap lines s i = false).
Proof.
  intros Hs.
  assert (Hfwd : forall e, end_line (scan marker min_gap lines) = Some e ->
            qualifies min_gap lines s e = true
            /\ forall i, i < e -> qualifies min_gap lines s i = false).
  { intros e He. split.
    - destruct (scan_end lines e He) as (s' & Hs' & Hq). congruence.
    - intros i Hi. apply scan_passed; [assumption|].
      unfold passed. now rewrite He. }
  assert (Hnone : end_line (scan marker min_gap lines) = None ->
            forall i, qualifies min_gap lines s i = false).
  { intros He i. destruct (le_lt_dec (length lines) i).
    - now apply qualifies_beyond.
    - apply scan_passed; [assumption|]. unfold passed. now rewrite He. }
  split.
  - intros e. split; [apply Hfwd|]. intros (Hq & Hmin).
    destruct (end_line (scan marker min_gap lines)) as [e'|] eqn:He.
    + destruct (Hfwd e' eq_refl) as (Hq' & Hmin').
      destruct (lt_eq_lt_dec e e') as [[Hlt | ->] | Hgt];
        [rewrite (Hmin' e Hlt) in Hq; discriminate
        | reflexivity
        | rewrite (Hmin e' Hgt) in Hq'; discriminate].
    + rewrite (Hnone eq_refl e) in Hq. discriminate.
  - split; [apply Hnone|]. intros Hall.
    destruct (end_line (scan marker min_gap lines)) as [e'|] eqn:He;
      [|reflexivity].
    destruct (Hfwd e' eq_refl) as (Hq' & _).
    rewrite Hall in Hq'. discriminate.
Qed.

End ScanResults.

(** ** The codecs *)

Module CodecFacts.

Local Open Scope N_scope.


Lemma to_N_byte_of (n : N) : n < 256 -> Byte.to_N (byte_of n) = n.
Proof.
  intros Hn. unfold byte_of. destruct (Byte.of_N n) as [b|] eqn:E.
  - now apply Byte.to_of_N.
  - apply Byte.of_N_None_iff in E. lia.
Qed.

(** Quotients and remainders of a code point by the powers of 64. *)
Lemma split64 (c : N) :
  c = 64 * (c / 64) + c mod 64 /\ c mod 64 < 64.
Proof.
  split; [apply N.div_mod; discriminate | apply N.mod_lt; discriminate].
Qed.

Lemma div_4096 (c : N) : c / 4096 = c / 64 / 64.
Proof. rewrite N.Div0.div_div. reflexivity. Qed.

Lemma div_262144 (c : N) : c / 262144 = c / 64 / 64 / 64.
Proof. rewrite !N.Div0.div_div. reflexivity. Qed.

Ltac ltb_cases :=
  repeat match goal with
  | |- context [?a <? ?b] => destruct (N.ltb_spec a b); try lia
  | |- context [?a <=? ?b] => destruct (N.leb_spec a b); try lia
  | |- context [?a =? ?b] => destruct (N.eqb_spec a b); try lia
  end.

Lemma Some_inj {A} (x y : A) : Some x = Some y -> x = y.
Proof. congruence. Qed.

Ltac split_code_point c :=
  let E0 := fresh "E0" in let B0 := fresh "B0" in
  let E1 := fresh "E1" in let B1 := fresh "B1" in
  let E2 := fresh "E2" in let B2 := fresh "B2" in
  rewrite ?div_262144, ?div_4096;
  destruct (split64 c) as (E0 & B0);
  destruct (split64 (c / 64)) as (E1 & B1);
  destruct (split64 (c / 64 / 64)) as (E2 & B2);
  generalize dependent (c mod 64);
  generalize dependent (c / 64 mod 64);
  generalize dependent (c / 64 / 64 mod 64);
  generalize dependent (c / 64 / 64 / 64);
  generalize dependent (c / 64 / 64);
  generalize dependent (c / 64).

(** Decoding the bytes of one code point gives it back. *)
Lemma decode_encode_char (final : bool) (c : char) (bs rest : bytes) :
  utf_8_encode_char c = Some bs ->
  utf_8_decode final (bs ++ rest)
  = option_map (cons c) (utf_8_decode final rest).
Proof.
  unfold utf_8_encode_char, is_scalar.
  ltb_cases; cbn [andb orb]; try discriminate;
    intros <-%Some_inj; cbn [app utf_8_decode]; unfold second_ok, cont;
    split_code_point c; intros;
    rewrite !to_N_byte_of by lia;
    ltb_cases; try lia; cbn [andb orb];
    solve [reflexivity | do 2 f_equal; lia].
Qed.

(** Decoding what the encoder produced gives the text back, whether or not
    the decoder is told that the input is complete. *)
Lemma decode_encode (final : bool) (s : str) :
  forall bs, utf_8_encode s = Some bs -> utf_8_decode final bs = Some s.
Proof.
  induction s as [|c s IH]; intros bs; cbn [utf_8_encode].
  - intros <-%Some_inj. reflexivity.
  - destruct (utf_8_encode_char c) as [b|] eqn:Ec; [|discriminate].
    destruct (utf_8_encode s) as [bs'|]; [|discriminate].
    intros <-%Some_inj.
    rewrite (decode_encode_char final c b bs' Ec), (IH bs' eq_refl).
    reflexivity.
Qed.

Lemma sig_decode_BOM (final : bool) (bs : bytes) :
  utf_8_sig_decode final (BOM_UTF8 ++ bs) = utf_8_decode final bs.
Proof. reflexivity. Qed.

Lemma sig_decode_encode (final : bool) (s : str) (bs : bytes) :
  utf_8_sig_encode s = Some bs -> utf_8_sig_decode final bs = Some s.
Proof.
  unfold utf_8_sig_encode.
  destruct (utf_8_encode s) as [bs'|] eqn:E; [|discriminate].
  intros <-%Some_inj. rewrite sig_decode_BOM. now apply decode_encode.
Qed.


Lemma encode_char_total (c : char) :
  is_scalar c = true -> exists bs, utf_8_encode_char c = Some bs.
Proof.
  unfold utf_8_encode_char, is_scalar.
  ltb_cases; cbn [andb orb]; try discriminate; eauto.
Qed.

Lemma encode_total (s : str) :
  scalars s -> exists bs, utf_8_encode s = Some bs.
Proof.
  induction 1 as [|c s Hc _ IH]; cbn [utf_8_encode]; [eauto|].
  destruct (encode_char_total c Hc) as (b & ->).
  destruct IH as (bs & ->). eauto.
Qed.

Ltac bool_cases :=
  unfold second_ok, cont, is_scalar;
  ltb_cases; cbn [andb orb]; try discriminate; try reflexivity; try lia.

Lemma scalar_1 (n0 : N) : n0 < 0x80 -> is_scalar n0 = true.
Proof. bool_cases. Qed.

Lemma scalar_2 (n0 n1 : N) :
  0xC2 <= n0 < 0xE0 -> cont n1 = true ->
  is_scalar ((n0 - 0xC0) * 64 + (n1 - 0x80)) = true.
Proof. intros H. bool_cases. Qed.

Lemma scalar_3 (n0 n1 n2 : N) :
  0xE0 <= n0 < 0xF0 -> second_ok n0 n1 = true -> cont n2 = true ->
  is_scalar ((n0 - 0xE0) * 4096 + (n1 - 0x80) * 64 + (n2 - 0x80)) = true.
Proof. intros H. bool_cases. Qed.

Lemma scalar_4 (n0 n1 n2 n3 : N) :
  0xF0 <= n0 < 0xF5 -> second_ok n0 n1 = true -> cont n2 = true ->
  cont n3 = true ->
  is_scalar ((n0 - 0xF0) * 262144 + (n1 - 0x80) * 4096 + (n2 - 0x80) * 64
             + (n3 - 0x80)) = true.
Proof. intros H. bool_cases. Qed.

(** Every code point the decoder returns is a scalar value. *)
Lemma decode_scalars_upto (final : bool) (n : nat) :
  forall bs s, (length bs <= n)%nat ->
               utf_8_decode final bs = Some s -> scalars s.
Proof.
  induction n as [|n IH]; intros bs s Hn;
    (destruct bs as [|b0 r0];
     [intros <-%Some_inj; constructor | simpl in Hn; try lia]).
  cbn [utf_8_decode].
  repeat match goal with
  | |- context [N.ltb ?a ?b] => destruct (N.ltb_spec a b)
  | |- match ?r with [] => _ | _ :: _ => _ end = _ -> _ =>
      destruct r as [|? ?]; simpl in Hn
  | |- incomplete _ = Some _ -> _ =>
      unfold incomplete; destruct final;
      [discriminate | intros <-%Some_inj; constructor]
  | |- None = Some _ -> _ => discriminate
  | |- (if second_ok ?a ?b then _ else _) = _ -> _ =>
      destruct (second_ok a b) eqn:?
  | |- (if cont ?a then _ else _) = _ -> _ => destruct (cont a) eqn:?
  | |- option_map _ (utf_8_decode final ?r) = Some _ -> _ =>
      let E := fresh "E" in
      destruct (utf_8_decode final r) as [s'|] eqn:E; [|discriminate];
      intros <-%Some_inj; constructor; [|apply (IH r s'); [lia | exact E]]
  end.
  - now apply scalar_1.
  - apply scalar_2; [lia | assumption].
  - apply scalar_3; [lia | assumption | assumption].
  - apply scalar_4; [lia | assumption | assumption | assumption].
Qed.

Lemma decode_scalars (final : bool) (bs : bytes) (s : str) :
  utf_8_decode final bs = Some s -> scalars s.
Proof. apply (decode_scalars_upto final (length bs)). lia. Qed.

Lemma sig_decode_scalars (final : bool) (bs : bytes) (s : str) :
  utf_8_sig_decode final bs = Some s -> scalars s.
Proof.
  unfold utf_8_sig_decode.
  destruct bs as [|b0 [|b1 [|b2 rest]]]; try apply decode_scalars.
  destruct (Byte.eqb b0 xef && Byte.eqb b1 xbb && Byte.eqb b2 xbf);
    apply decode_scalars.
Qed.

(** Joining the lines [splitlines] returns gives the text back. *)
Lemma join_splitlines_from (n : nat) :
  forall s cur, (length s <= n)%nat ->
                join (splitlines_from cur s) = rev cur ++ s.
Proof.
  unfold join.
  induction n as [|n IH]; intros s cur Hn;
    (destruct s as [|c s'];
     [destruct cur; simpl; now rewrite ?app_nil_r | simpl in Hn; try lia]).
  cbn [splitlines_from].
  destruct (c =? 0x0D).
  - destruct s' as [|d s''].
    + simpl. now rewrite !app_nil_r.
    + destruct (d =? 0x0A); cbn [concat].
      * rewrite IH by (simpl in Hn; lia). simpl.
        now rewrite <- !app_assoc.
      * rewrite IH by lia. simpl. now rewrite <- !app_assoc.
  - destruct (is_linebreak c); cbn [concat].
    + rewrite IH by lia. simpl. now rewrite <- !app_assoc.
    + rewrite IH by lia. simpl. now rewrite <- !app_assoc.
Qed.

Lemma join_splitlines (s : str) : join (splitlines s) = s.
Proof. apply (join_splitlines_from (length s)). lia. Qed.

Lemma splitlines_scalars (s : str) :
  scalars s -> Forall scalars (splitlines s).
Proof.
  intros H. apply Forall_concat. fold (join (splitlines s)).
  now rewrite join_splitlines.
Qed.

Lemma universal_newlines_scalars_upto (n : nat) :
  forall s, (length s <= n)%nat -> scalars s ->
            scalars (universal_newlines s).
Proof.
  induction n as [|n IH]; intros s Hn Hs;
    (destruct s as [|c s']; [constructor | simpl in Hn; try lia]).
  cbn [universal_newlines]. inversion_clear Hs as [|? ? Hc Hs'].
  destruct (c =? 0x0D).
  - destruct s' as [|d s''].
    + repeat constructor.
    + inversion_clear Hs' as [|? ? Hd Hs''].
      destruct (d =? 0x0A).
      * constructor; [reflexivity|].
        apply IH; [simpl in Hn; lia | assumption].
      * constructor; [reflexivity|].
        apply IH; [simpl in Hn |- *; lia | now constructor].
  - constructor; [assumption | apply IH; [lia | assumption]].
Qed.

Lemma universal_newlines_scalars (s : str) :
  scalars s -> scalars (universal_newlines s).
Proof. apply (universal_newlines_scalars_upto (length s)). lia. Qed.

End CodecFacts.

Import CodecFacts.

(** ** The run *)

Lemma bind_ok {A B} (m : M A) (k : A -> M B) (w w' : world) (a : A) :
  m w = (w', Ok a) -> bind m k w = k a w'.
Proof. intros H. unfold bind. now rewrite H. Qed.

(** Loading reads and does not write. *)
Lemma readlines_target_ok (w w' : world) (lines : list str) :
  readlines_target w = (w', Ok lines) ->
  w' = w /\ exists raw text,
    target w = Some raw /\ utf_8_sig_decode false raw = Some text
    /\ lines = splitlines text.
Proof.
  unfold readlines_target, bind, read_all, or_raise.
  destruct (target w) as [raw|] eqn:Et; [|discriminate].
  destruct (utf_8_sig_decode false raw) as [text|] eqn:Ed; [|discriminate].
  cbn [ret]. intros [= <- <-]. split; [reflexivity|].
  exists raw, text. auto.
Qed.

Lemma read_new_imgui_ok (w w' : world) (new_imgui : str) :
  read_new_imgui w = (w', Ok new_imgui) ->
  w' = w /\ exists raw text,
    replacement w = Some raw /\ utf_8_decode true raw = Some text
    /\ new_imgui = universal_newlines text.
Proof.
  unfold read_new_imgui, bind, read_all, or_raise.
  destruct (replacement w) as [raw|] eqn:Et; [|discriminate].
  destruct (utf_8_decode true raw) as [text|] eqn:Ed; [|discriminate].
  cbn [ret]. intros [= <- <-]. split; [reflexivity|].
  exists raw, text. auto.
Qed.

Lemma readlines_target_scalars (w w' : world) (lines : list str) :
  readlines_target w = (w', Ok lines) -> Forall scalars lines.
Proof.
  intros H. apply readlines_target_ok in H as (_ & raw & text & _ & Hd & ->).
  apply splitlines_scalars. eapply sig_decode_scalars. eassumption.
Qed.

Lemma read_new_imgui_scalars (w w' : world) (new_imgui : str) :
  read_new_imgui w = (w', Ok new_imgui) -> scalars new_imgui.
Proof.
  intros H. apply read_new_imgui_ok in H as (_ & raw & text & _ & Hd & ->).
  apply universal_newlines_scalars. eapply decode_scalars. eassumption.
Qed.

(** The run, once both files are loaded. *)
Lemma main_run (w : world) (lines : list str) (new_imgui : str) :
  readlines_target w = (w, Ok lines) ->
  read_new_imgui w = (w, Ok new_imgui) ->
  main w =
  match start_line (locate lines), end_line (locate lines) with
  | Some s, Some e =>
      match utf_8_sig_encode (join (spliced lines new_imgui s e)) with
      | Some bs =>
          (World (Some bs) (replacement w)
                 (stdout w ++ [found_message (s + 1) (e + 1);
                               success_message]),
           Ok tt)
      | None =>
          (World (Some []) (replacement w)
                 (stdout w ++ [found_message (s + 1) (e + 1)]),
           Raised UnicodeEncodeError)
      end
  | _, _ => (w, Raised TypeError)
  end.
Proof.
  intros Hl Hn. unfold main.
  rewrite (bind_ok _ _ _ _ _ Hl), (bind_ok _ _ _ _ _ Hn).
  destruct (locate lines) as [[s|] [e|]];
    cbn [start_line end_line]; try reflexivity.
  cbv [plus_one new_lines writelines bind ret or_raise raise print
       open_target_for_writing write_target slice_to slice_from spliced
       target replacement stdout start_line end_line].
  destruct (utf_8_sig_encode _) as [bs|]; [|reflexivity].
  rewrite <- app_assoc. reflexivity.
Qed.

Lemma spliced_scalars (lines : list str) (new_imgui : str) (s e : nat) :
  Forall scalars lines -> scalars new_imgui ->
  scalars (join (spliced lines new_imgui s e)).
Proof.
  intros Hl Hn. apply Forall_concat. unfold spliced.
  rewrite !Forall_app. repeat split.
  - rewrite <- (firstn_skipn s lines) in Hl. now apply Forall_app in Hl.
  - constructor; [|constructor]. apply Forall_app. split; [assumption|].
    repeat constructor.
  - rewrite <- (firstn_skipn (e + 1) lines) in Hl.
    now apply Forall_app in Hl.
Qed.

(** ** What the scan and the run give, for the script's constants *)

Lemma locate_bounds (lines : list str) (s e : nat) :
  locate lines = Bounds (Some s) (Some e) ->
  s + 10 < e /\ e + 1 < length lines.
Proof.
  intros H.
  destruct (scan_end MARKER MIN_GAP lines e) as (s' & Hs & Hq).
  { fold (locate lines). now rewrite H. }
  fold (locate lines) in Hs. rewrite H in Hs. injection Hs as <-.
  apply qualifies_iff in Hq. unfold MIN_GAP in Hq. lia.
Qed.

(** Without a marker line the start index stays unset. *)
Lemma no_marker_no_start (lines : list str) :
  Forall (fun line => contains MARKER line = false) lines ->
  start_line (locate lines) = None.
Proof.
  intros Hno.
  destruct (scan_start MARKER MIN_GAP lines)
    as [(Hs & _) | (s & _ & Hlt & Hm & _)]; [exact Hs|].
  rewrite Forall_forall in Hno.
  rewrite (Hno (nth s lines [])) in Hm by (apply nth_In; exact Hlt).
  discriminate.
Qed.

(** The end index is only set once the start index is. *)
Lemma end_needs_start (lines : list str) :
  start_line (locate lines) = None -> end_line (locate lines) = None.
Proof.
  intros Hs. destruct (end_line (locate lines)) as [e|] eqn:He;
    [|reflexivity].
  destruct (scan_end MARKER MIN_GAP lines e He) as (s & Hs' & _).
  fold (locate lines) in Hs'. congruence.
Qed.

(** A run in which both indices are located writes the byte-order mark
    and the UTF-8 bytes of the joined list, and ends normally. *)
Lemma main_success (w : world) (lines : list str) (new_imgui : str)
      (s e : nat) :
  readlines_target w = (w, Ok lines) ->
  read_new_imgui w = (w, Ok new_imgui) ->
  locate lines = Bounds (Some s) (Some e) ->
  exists bs,
    utf_8_encode (join (spliced lines new_imgui s e)) = Some bs
    /\ main w = (World (Some (BOM_UTF8 ++ bs)) (replacement w)
                       (stdout w ++ [found_message (s + 1) (e + 1);
                                     success_message]),
                 Ok tt).
Proof.
  intros Hl Hn Hb.
  destruct (encode_total (join (spliced lines new_imgui s e)))
    as (bs & Hbs).
  { apply spliced_scalars.
    - eapply readlines_target_scalars; eassumption.
    - eapply read_new_imgui_scalars; eassumption. }
  exists bs. split; [assumption|].
  rewrite (main_run w lines new_imgui Hl Hn), Hb.
  cbn [start_line end_line]. unfold utf_8_sig_encode. now rewrite Hbs.
Qed.

(** ** The properties of the specification *)

(** C1. When both indices are located, line 30 builds the lines before
    [start_line], then the replacement with one line feed appended as a
    single element, then the lines after [end_line]; the run writes that
    list and ends normally; every line outside [start_line, end_line] is
    where it was, shifted by the length of the region for those after it. *)
Theorem splice_written (w : world) (lines : list str) (new_imgui : str)
        (s e : nat) :
  readlines_target w = (w, Ok lines) ->
  read_new_imgui w = (w, Ok new_imgui) ->
  locate lines = Bounds (Some s) (Some e) ->
  let nl := spliced lines new_imgui s e in
  (forall w0, new_lines lines new_imgui (locate lines) w0 = (w0, Ok nl))
  /\ (exists bs,
        utf_8_sig_encode (join nl) = Some bs
        /\ main w = (World (Some bs) (replacement w)
                           (stdout w ++ [found_message (s + 1) (e + 1);
                                         success_message]),
                     Ok tt))
  /\ (forall j, j < s -> nth_error nl j = nth_error lines j)
  /\ nth_error nl s = Some (new_imgui ++ LF)
  /\ (forall j, e < j -> nth_error nl (s + (j - e)) = nth_error lines j)
  /\ length nl + (e - s) = length lines.
Proof.
  intros Hl Hn Hb nl.
  destruct (locate_bounds lines s e Hb) as (Hse & He).
  assert (Hlen : length (firstn s lines) = s)
    by (rewrite length_firstn; lia).
  split; [|split; [|split; [|split; [|split]]]].
  - intros w0. rewrite Hb. reflexivity.
  - destruct (main_success w lines new_imgui s e Hl Hn Hb)
      as (bs & Hbs & Hrun).
    exists (BOM_UTF8 ++ bs). split; [|exact Hrun].
    unfold utf_8_sig_encode. fold nl in Hbs. now rewrite Hbs.
  - intros j Hj. unfold nl, spliced.
    rewrite nth_error_app1 by lia.
    rewrite nth_error_firstn.
    destruct (Nat.ltb_spec j s); [reflexivity | lia].
  - unfold nl, spliced. rewrite nth_error_app2 by lia.
    rewrite Hlen, Nat.sub_diag. reflexivity.
  - intros j Hj. unfold nl, spliced.
    rewrite nth_error_app2 by lia. rewrite Hlen.
    replace (s + (j - e) - s) with (S (j - e - 1)) by lia.
    cbn [app nth_error]. rewrite nth_error_skipn. f_equal. lia.
  - unfold nl, spliced. rewrite !length_app, Hlen, length_skipn.
    simpl. lia.
Qed.

Lemma splice_written_witness :
  exists bs,
    main renderer_world
    = (World (Some bs) (replacement renderer_world)
             [found_message 2 14; success_message], Ok tt).
Proof.
  destruct (splice_written renderer_world renderer_lines
              (of_string short_imgui) 1 13) as (_ & (bs & _ & Hrun) & _).
  - vm_compute. reflexivity.
  - vm_compute. reflexivity.
  - vm_compute. reflexivity.
  - exists bs. exact Hrun.
Defined.

(** C2, as the specification states it, does not hold: on a file without
    the marker the run ends with [TypeError], raised by [start_line + 1] on
    line 27, and not with [NotFoundError]. *)
Lemma no_marker_not_NotFoundError :
  Forall (fun line => contains MARKER line = false)
         (splitlines (of_string plain_cpp))
  /\ readlines_target plain_world
     = (plain_world, Ok (splitlines (of_string plain_cpp)))
  /\ main plain_world = (plain_world, Raised TypeError)
  /\ snd (main plain_world) <> Raised NotFoundError.
Proof.
  split; [vm_compute; repeat constructor|].
  split; [vm_compute; reflexivity|].
  split; [vm_compute; reflexivity|].
  vm_compute. discriminate.
Qed.

(** C2, amended. When no line of the loaded document contains the marker,
    the run ends with [TypeError] before the target is opened for writing:
    the files and the standard output are as they were. *)
Theorem no_marker_aborts (w : world) (lines : list str) (new_imgui : str) :
  readlines_target w = (w, Ok lines) ->
  read_new_imgui w = (w, Ok new_imgui) ->
  Forall (fun line => contains MARKER line = false) lines ->
  main w = (w, Raised TypeError).
Proof.
  intros Hl Hn Hno.
  rewrite (main_run w lines new_imgui Hl Hn).
  now rewrite (no_marker_no_start lines Hno).
Qed.

Lemma no_marker_aborts_witness :
  main plain_world = (plain_world, Raised TypeError).
Proof.
  apply (no_marker_aborts plain_world (splitlines (of_string plain_cpp))
           (of_string short_imgui)).
  - vm_compute. reflexivity.
  - vm_compute. reflexivity.
  - vm_compute. repeat constructor.
Defined.

(** C3, as the specification states it, does not hold: on a file in which
    the marker is found and no end line is, the run ends with [TypeError],
    raised by [end_line + 1] on line 27, and not with [BoundaryError]. *)
Lemma no_end_not_BoundaryError :
  start_line (locate last_function_lines) = Some 1
  /\ end_line (locate last_function_lines) = None
  /\ readlines_target last_function_world
     = (last_function_world, Ok last_function_lines)
  /\ main last_function_world = (last_function_world, Raised TypeError)
  /\ snd (main last_function_world) <> Raised BoundaryError.
Proof.
  do 4 (split; [vm_compute; reflexivity|]).
  vm_compute. discriminate.
Qed.

(** C3, amended. When some line of the loaded document contains the marker
    and no line satisfies the end condition for a marker line, the run ends
    with [TypeError] before the target is opened for writing: the files and
    the standard output are as they were. *)
Theorem no_end_aborts (w : world) (lines : list str) (new_imgui : str) :
  readlines_target w = (w, Ok lines) ->
  read_new_imgui w = (w, Ok new_imgui) ->
  Exists (fun line => contains MARKER line = true) lines ->
  (forall s i, contains MARKER (nth s lines []) = true ->
               qualifies MIN_GAP lines s i = false) ->
  main w = (w, Raised TypeError).
Proof.
  intros Hl Hn Hex Hnone.
  rewrite (main_run w lines new_imgui Hl Hn).
  destruct (end_line (locate lines)) as [e|] eqn:He.
  - destruct (scan_end MARKER MIN_GAP lines e He) as (s & Hs & Hq).
    destruct (scan_start MARKER MIN_GAP lines)
      as [(Hs' & _) | (s' & Hs' & _ & Hm & _)]; cbv zeta in Hs';
      [congruence|].
    assert (s' = s) as -> by congruence.
    rewrite (Hnone s e Hm) in Hq. discriminate.
  - now destruct (start_line (locate lines)).
Qed.

Lemma no_end_aborts_witness :
  main last_function_world = (last_function_world, Raised TypeError).
Proof.
  apply (no_end_aborts last_function_world last_function_lines
           (of_string short_imgui)).
  - vm_compute. reflexivity.
  - vm_compute. reflexivity.
  - vm_compute. apply Exists_cons_tl, Exists_cons_hd. reflexivity.
  - intros s i _. unfold qualifies.
    assert (Hlen : length last_function_lines = 14)
      by (vm_compute; reflexivity).
    rewrite Hlen.
    destruct (Nat.ltb_spec (s + MIN_GAP) i) as [Hs|Hs];
      [|now rewrite andb_false_r].
    destruct (Nat.ltb_spec (i + 1) 14) as [Hi|Hi];
      [|now rewrite andb_false_r].
    unfold MIN_GAP in Hs.
    assert (i = 11 \/ i = 12) as [-> | ->] by lia; vm_compute; reflexivity.
Defined.

(** C4. With [s] the start index the scan returns, the end index is the
    first index [i] whose line is a lone closing brace, more than 10 lines
    after [s], and followed by a line that is blank or starts a banner
    comment or a [void] declaration; the end index is unset exactly when
    there is no such index. Braces are not counted: the first line that
    satisfies the condition is taken. *)
Theorem end_is_first_match (lines : list str) (s : nat) :
  start_line (locate lines) = Some s ->
  (forall e, end_line (locate lines) = Some e <->
             (qualifies MIN_GAP lines s e = true
              /\ forall i, i < e -> qualifies MIN_GAP lines s i = false))
  /\ (end_line (locate lines) = None <->
      forall i, qualifies MIN_GAP lines s i = false).
Proof. apply scan_first_match. Qed.

Lemma end_is_first_match_witness :
  (forall e, end_line (locate renderer_lines) = Some e <->
             (qualifies MIN_GAP renderer_lines 1 e = true
              /\ forall i, i < e ->
                           qualifies MIN_GAP renderer_lines 1 i = false))
  /\ (end_line (locate renderer_lines) = None <->
      forall i, qualifies MIN_GAP renderer_lines 1 i = false).
Proof.
  apply (end_is_first_match renderer_lines 1). vm_compute. reflexivity.
Defined.

(** C5, as the specification states it, does not hold: when a comment above
    the function quotes the signature, the first marker line is line 0 and
    the start index is 1. *)
Lemma start_not_first_marker :
  first_marker MARKER commented_lines = Some 0
  /\ locate commented_lines = Bounds (Some 1) (Some 13)
  /\ start_line (locate commented_lines)
     <> first_marker MARKER commented_lines.
Proof.
  split; [vm_compute; reflexivity|].
  split; [vm_compute; reflexivity|].
  vm_compute. discriminate.
Qed.

(** C5, amended. When some line contains the marker, a start index is
    located, and it is the index of the last marker line among the lines
    the loop has gone through: no later line up to the end index (up to the
    last line, when no end index is located) contains the marker. *)
Theorem start_is_last_marker (lines : list str) :
  Exists (fun line => contains MARKER line = true) lines ->
  exists s,
    start_line (locate lines) = Some s
    /\ s < length lines
    /\ contains MARKER (nth s lines []) = true
    /\ forall j, s < j -> visited lines (locate lines) j ->
                 contains MARKER (nth j lines []) = false.
Proof.
  intros Hex.
  destruct (scan_start MARKER MIN_GAP lines)
    as [(Hs & Hno) | (s & Hs & Hlt & Hm & Hno)]; cbv zeta in *;
    change (scan MARKER MIN_GAP lines) with (locate lines) in *.
  - exfalso. apply Exists_exists in Hex as (line & Hin & Hline).
    destruct (In_nth lines line [] Hin) as (j & Hj & <-).
    rewrite Hno in Hline; [discriminate|].
    unfold visited. now rewrite (end_needs_start lines Hs).
  - exists s. auto.
Qed.

Lemma start_is_last_marker_witness :
  exists s,
    start_line (locate commented_lines) = Some s
    /\ s < length commented_lines
    /\ contains MARKER (nth s commented_lines []) = true
    /\ forall j, s < j -> visited commented_lines (locate commented_lines) j ->
                 contains MARKER (nth j commented_lines []) = false.
Proof.
  apply (start_is_last_marker commented_lines).
  vm_compute. apply Exists_cons_hd. reflexivity.
Defined.

(** C6. The scenario of the specification: with the marker ["void Foo"] and
    a minimum distance of 0, the scan of the six lines gives the indices 0
    and 2, and line 30 builds the four expected elements. *)
Theorem foo_scenario :
  scan (of_string "void Foo") 0 foo_lines = Bounds (Some 0) (Some 2)
  /\ forall w, new_lines foo_lines foo_replacement
                         (scan (of_string "void Foo") 0 foo_lines) w
               = (w, Ok foo_expected).
Proof.
  split; [vm_compute; reflexivity|].
  intros w. vm_compute. reflexivity.
Qed.

(** C7. The run is not idempotent. Replacing the function by itself and
    running again on the result succeeds and gives another file (each run
    leaves one more blank line after the function); with a replacement that
    does not contain the marker, the second run fails, with [TypeError]. In
    both cases the marker line is the first line of the region replaced. *)
Theorem not_idempotent :
  (exists w lines s e w1 w2,
      readlines_target w = (w, Ok lines)
      /\ locate lines = Bounds (Some s) (Some e)
      /\ contains MARKER (nth s lines []) = true
      /\ main w = (w1, Ok tt)
      /\ main w1 = (w2, Ok tt)
      /\ target w2 <> target w1)
  /\ (exists w w1,
         main w = (w1, Ok tt) /\ main w1 = (w1, Raised TypeError)).
Proof.
  split.
  - exists same_function_world, renderer_lines, 1, 13.
    exists (fst (main same_function_world)).
    exists (fst (main (fst (main same_function_world)))).
    do 5 (split; [vm_compute; reflexivity|]).
    vm_compute. discriminate.
  - exists renamed_world, (fst (main renamed_world)).
    split; vm_compute; reflexivity.
Qed.

(** C8, as the specification states it, does not hold: the replacement is
    written as one element and read back as its lines, so that the list
    read back (7 lines) is not the list written (5 elements). *)
Lemma reread_not_written :
  let written := spliced renderer_lines (of_string short_imgui) 1 13 in
  let w' := fst (main renderer_world) in
  snd (main renderer_world) = Ok tt
  /\ (forall w0, new_lines renderer_lines (of_string short_imgui)
                           (locate renderer_lines) w0 = (w0, Ok written))
  /\ length written = 5
  /\ (exists reread, readlines_target w' = (w', Ok reread)
                     /\ length reread = 7)
  /\ readlines_target w' <> (w', Ok written).
Proof.
  cbv zeta.
  split; [vm_compute; reflexivity|].
  split; [intros w0; vm_compute; reflexivity|].
  split; [vm_compute; reflexivity|].
  split; [eexists; split; vm_compute; reflexivity|].
  intros H.
  apply (f_equal (fun r => match snd r with
                           | Ok ls => length ls
                           | Raised _ => 0
                           end)) in H.
  vm_compute in H. discriminate H.
Qed.

(** C8, amended. After a run that ends normally the target file is one
    byte-order mark followed by the UTF-8 bytes of the joined list; read
    again as on lines 4 and 5 it gives the lines of that text, whose
    concatenation is the concatenation of the list written: the text comes
    back unchanged, the replacement split at its line breaks. *)
Theorem reread_gives_written_text (w : world) (lines : list str)
        (new_imgui : str) (s e : nat) :
  readlines_target w = (w, Ok lines) ->
  read_new_imgui w = (w, Ok new_imgui) ->
  locate lines = Bounds (Some s) (Some e) ->
  let nl := spliced lines new_imgui s e in
  let w' := fst (main w) in
  snd (main w) = Ok tt
  /\ (exists bs, utf_8_encode (join nl) = Some bs
                 /\ target w' = Some (BOM_UTF8 ++ bs))
  /\ readlines_target w' = (w', Ok (splitlines (join nl)))
  /\ join (splitlines (join nl)) = join nl.
Proof.
  intros Hl Hn Hb nl w'.
  destruct (main_success w lines new_imgui s e Hl Hn Hb)
    as (bs & Hbs & Hrun).
  fold nl in Hbs. subst w'. rewrite Hrun. cbn [fst snd].
  split; [reflexivity|]. split; [|split].
  - exists bs. split; [assumption | reflexivity].
  - unfold readlines_target, bind, read_all, or_raise.
    cbn [target]. rewrite sig_decode_BOM.
    rewrite (decode_encode false (join nl) bs Hbs). reflexivity.
  - apply join_splitlines.
Qed.

Lemma reread_gives_written_text_witness :
  let nl := spliced renderer_lines (of_string short_imgui) 1 13 in
  let w' := fst (main renderer_world) in
  readlines_target w' = (w', Ok (splitlines (join nl))).
Proof.
  apply (reread_gives_written_text renderer_world renderer_lines
           (of_string short_imgui) 1 13); vm_compute; reflexivity.
Defined.

(** C9. When the end index is set, the start index is set and the end index
    is more than 10 lines beyond it: the region has at least 12 lines and
    the start index is below the end index. *)
Theorem end_beyond_start (lines : list str) (e : nat) :
  end_line (locate lines) = Some e ->
  exists s, start_line (locate lines) = Some s
            /\ s + 10 < e /\ 12 <= e - s + 1 /\ s < e.
Proof.
  intros He.
  destruct (scan_end MARKER MIN_GAP lines e He) as (s & Hs & Hq).
  exists s. apply qualifies_iff in Hq. unfold MIN_GAP in Hq.
  repeat split; try assumption; lia.
Qed.

Lemma end_beyond_start_witness :
  exists s, start_line (locate renderer_lines) = Some s
            /\ s + 10 < 13 /\ 12 <= 13 - s + 1 /\ s < 13.
Proof.
  apply (end_beyond_start renderer_lines 13). vm_compute. reflexivity.
Defined.

(** C10. The last line is never the end index, since the line after the
    end index is read; and when every lone closing brace more than 10 lines
    after a marker line is the last line, the end index stays unset. *)
Theorem last_line_never_end (lines : list str) :
  (forall e, end_line (locate lines) = Some e -> e + 1 < length lines)
  /\ ((forall s i,
         contains MARKER (nth s lines []) = true ->
         s + 10 < i -> i < length lines ->
         is_lone_brace (nth i lines []) = true ->
         i + 1 = length lines) ->
      end_line (locate lines) = None).
Proof.
  assert (H : forall e, end_line (locate lines) = Some e ->
                        exists s, start_line (locate lines) = Some s
                                  /\ qualifies MIN_GAP lines s e = true).
  { intros e He. exact (scan_end MARKER MIN_GAP lines e He). }
  split.
  - intros e He. destruct (H e He) as (s & _ & Hq).
    apply qualifies_iff in Hq. tauto.
  - intros Hlast.
    destruct (end_line (locate lines)) as [e|] eqn:He; [|reflexivity].
    destruct (H e eq_refl) as (s & Hs & Hq).
    apply qualifies_iff in Hq. destruct Hq as (Hb & Hgap & Hnext & _).
    unfold MIN_GAP in Hgap.
    destruct (scan_start MARKER MIN_GAP lines)
      as [(Hs' & _) | (s' & Hs' & _ & Hm & _)]; cbv zeta in Hs';
      change (scan MARKER MIN_GAP lines) with (locate lines) in Hs';
      [congruence|].
    assert (s' = s) as -> by congruence.
    specialize (Hlast s e Hm Hgap ltac:(lia) Hb). lia.
Qed.

Lemma last_line_never_end_witness :
  end_line (locate last_function_lines) = None.
Proof.
  apply (proj2 (last_line_never_end last_function_lines)).
  assert (Hlen : length last_function_lines = 14)
    by (vm_compute; reflexivity).
  rewrite Hlen. intros s i _ Hs Hi.
  assert (i = 11 \/ i = 12 \/ i = 13) as [-> | [-> | ->]] by lia;
    vm_compute; congruence.
Defined.

(** * Further properties of the script *)

(** ** More on the codecs: from the bytes to the text and back *)

Module CodecInverse.

Local Open Scope N_scope.

Lemma byte_of_to_N (b : byte) : byte_of (Byte.to_N b) = b.
Proof. unfold byte_of. now rewrite Byte.of_to_N. Qed.

Lemma to_N_lt (b : byte) : Byte.to_N b < 256.
Proof. pose proof (Byte.to_N_bounded b). lia. Qed.

Ltac encode_cases c :=
  unfold second_ok, cont, utf_8_encode_char, is_scalar;
  remember c as cp eqn:Ecp;
  ltb_cases; cbn [andb orb]; try discriminate; intros;
  split_code_point cp; intros; repeat f_equal; lia.

(** The encoder gives back the bytes a code point was decoded from. *)
Lemma encode_1 (n0 : N) :
  n0 < 0x80 -> utf_8_encode_char n0 = Some [byte_of n0].
Proof. intros H. unfold utf_8_encode_char. now ltb_cases. Qed.

Lemma encode_2 (n0 n1 : N) :
  0xC2 <= n0 < 0xE0 -> cont n1 = true ->
  utf_8_encode_char ((n0 - 0xC0) * 64 + (n1 - 0x80))
  = Some [byte_of n0; byte_of n1].
Proof. intros H. encode_cases ((n0 - 0xC0) * 64 + (n1 - 0x80)). Qed.

Lemma encode_3 (n0 n1 n2 : N) :
  0xE0 <= n0 < 0xF0 -> second_ok n0 n1 = true -> cont n2 = true ->
  utf_8_encode_char ((n0 - 0xE0) * 4096 + (n1 - 0x80) * 64 + (n2 - 0x80))
  = Some [byte_of n0; byte_of n1; byte_of n2].
Proof.
  intros H.
  encode_cases ((n0 - 0xE0) * 4096 + (n1 - 0x80) * 64 + (n2 - 0x80)).
Qed.

Lemma encode_4 (n0 n1 n2 n3 : N) :
  0xF0 <= n0 < 0xF5 -> second_ok n0 n1 = true -> cont n2 = true ->
  cont n3 = true ->
  utf_8_encode_char ((n0 - 0xF0) * 262144 + (n1 - 0x80) * 4096
                     + (n2 - 0x80) * 64 + (n3 - 0x80))
  = Some [byte_of n0; byte_of n1; byte_of n2; byte_of n3].
Proof.
  intros H.
  encode_cases ((n0 - 0xF0) * 262144 + (n1 - 0x80) * 4096
                + (n2 - 0x80) * 64 + (n3 - 0x80)).
Qed.


(** What the decoder returns encodes to the bytes it has read; the bytes it
    has not read are an incomplete sequence at the end of the input, there
    only when the decoder was not told that the input is complete. *)
Lemma decode_inv_upto (final : bool) (n : nat) :
  forall bs s, (length bs <= n)%nat ->
    utf_8_decode final bs = Some s ->
    exists enc tail,
      utf_8_encode s = Some enc /\ bs = enc ++ tail
      /\ (final = true -> tail = []) /\ (length tail < 4)%nat.
Proof.
  induction n as [|n IH]; intros bs s Hn;
    (destruct bs as [|b0 r0];
     [intros <-%Some_inj; exists [], [];
      split; [reflexivity | split; [reflexivity | split; [reflexivity|]]];
      simpl; lia
     | simpl in Hn; try lia]).
  cbn [utf_8_decode].
  repeat match goal with
  | |- context [N.ltb ?a ?b] => destruct (N.ltb_spec a b)
  | |- match ?r with [] => _ | _ :: _ => _ end = _ -> _ =>
      destruct r as [|? ?]; simpl in Hn
  | |- incomplete _ = Some _ -> _ =>
      unfold incomplete; destruct final;
      [discriminate
      | intros <-%Some_inj; eexists [], _;
        split; [reflexivity | split; [reflexivity | split; [discriminate|]]];
        simpl; lia]
  | |- None = Some _ -> _ => discriminate
  | |- (if second_ok ?a ?b then _ else _) = _ -> _ =>
      destruct (second_ok a b) eqn:?
  | |- (if cont ?a then _ else _) = _ -> _ => destruct (cont a) eqn:?
  | |- option_map _ (utf_8_decode final ?r) = Some _ -> _ =>
      let E := fresh "E" in
      let s' := fresh "s'" in
      destruct (utf_8_decode final r) as [s'|] eqn:E; [|discriminate];
      intros <-%Some_inj;
      let enc := fresh "enc" in
      let tail := fresh "tail" in
      let He := fresh "He" in
      let Hf := fresh "Hf" in
      let Ht := fresh "Ht" in
      destruct (IH r s' ltac:(lia) E) as (enc & tail & He & -> & Hf & Ht);
      cbn [utf_8_encode]; rewrite He; clear IH
  end.
  - rewrite encode_1, byte_of_to_N by assumption.
    eexists _, tail. split; [reflexivity|]. auto.
  - rewrite encode_2, !byte_of_to_N by (try assumption; lia).
    eexists _, tail. split; [reflexivity|]. auto.
  - rewrite encode_3, !byte_of_to_N by (try assumption; lia).
    eexists _, tail. split; [reflexivity|]. auto.
  - rewrite encode_4, !byte_of_to_N by (try assumption; lia).
    eexists _, tail. split; [reflexivity|]. auto.
Qed.

Lemma decode_inv (final : bool) (bs : bytes) (s : str) :
  utf_8_decode final bs = Some s ->
  exists enc tail,
    utf_8_encode s = Some enc /\ bs = enc ++ tail
    /\ (final = true -> tail = []) /\ (length tail < 4)%nat.
Proof. apply (decode_inv_upto final (length bs)). lia. Qed.

Lemma sig_decode_inv (final : bool) (raw : bytes) (text : str) :
  utf_8_sig_decode final raw = Some text ->
  exists bom enc tail,
    (bom = [] \/ bom = BOM_UTF8)
    /\ utf_8_encode text = Some enc /\ raw = bom ++ enc ++ tail
    /\ (final = true -> tail = []) /\ (length tail < 4)%nat.
Proof.
  unfold utf_8_sig_decode. intros H.
  assert (Hplain : utf_8_decode final raw = Some text ->
                   exists bom enc tail,
                     (bom = [] \/ bom = BOM_UTF8)
                     /\ utf_8_encode text = Some enc /\ raw = bom ++ enc ++ tail
                     /\ (final = true -> tail = []) /\ (length tail < 4)%nat).
  { intros Hd. apply decode_inv in Hd as (enc & tail & He & Hr & Hf & Ht).
    exists [], enc, tail. auto. }
  destruct raw as [|b0 [|b1 [|b2 rest]]]; try (now apply Hplain).
  destruct (Byte.eqb b0 xef && Byte.eqb b1 xbb && Byte.eqb b2 xbf) eqn:Eb;
    [|now apply Hplain].
  apply andb_true_iff in Eb as (Eb & E2).
  apply andb_true_iff in Eb as (E0 & E1).
  apply Byte.byte_dec_bl in E0, E1, E2. subst b0 b1 b2.
  apply decode_inv in H as (enc & tail & He & -> & Hf & Ht).
  exists BOM_UTF8, enc, tail. auto.
Qed.

Lemma encode_app (a b : str) :
  utf_8_encode (a ++ b)
  = match utf_8_encode a, utf_8_encode b with
    | Some x, Some y => Some (x ++ y)
    | _, _ => None
    end.
Proof.
  induction a as [|c a IH]; cbn [app utf_8_encode].
  - now destruct (utf_8_encode b).
  - rewrite IH. destruct (utf_8_encode_char c) as [cb|]; [|reflexivity].
    destruct (utf_8_encode a) as [x|]; [|reflexivity].
    destruct (utf_8_encode b) as [y|]; [|reflexivity].
    now rewrite app_assoc.
Qed.

Lemma encode_app_inv (a b : str) (bs : bytes) :
  utf_8_encode (a ++ b) = Some bs ->
  exists x y, utf_8_encode a = Some x /\ utf_8_encode b = Some y
              /\ bs = x ++ y.
Proof.
  rewrite encode_app.
  destruct (utf_8_encode a) as [x|]; [|discriminate].
  destruct (utf_8_encode b) as [y|]; [|discriminate].
  intros <-%Some_inj. eauto.
Qed.

(** Bytes that follow a complete text are decoded after it. *)
Lemma decode_app (final : bool) (s : str) :
  forall bs rest, utf_8_encode s = Some bs ->
    utf_8_decode final (bs ++ rest)
    = option_map (app s) (utf_8_decode final rest).
Proof.
  induction s as [|c s IH]; intros bs rest; cbn [utf_8_encode].
  - intros <-%Some_inj. simpl. now destruct (utf_8_decode final rest).
  - destruct (utf_8_encode_char c) as [b|] eqn:Ec; [|discriminate].
    destruct (utf_8_encode s) as [bs'|]; [|discriminate].
    intros <-%Some_inj. rewrite <- app_assoc.
    rewrite (decode_encode_char final c b _ Ec), (IH bs' rest eq_refl).
    now destruct (utf_8_decode final rest).
Qed.

End CodecInverse.

Import CodecInverse.

(** ** More on the run: how it ends *)

Lemma readlines_target_cases (w : world) :
  (target w = None /\ readlines_target w = (w, Raised OSError))
  \/ (exists raw, target w = Some raw /\ utf_8_sig_decode false raw = None
                  /\ readlines_target w = (w, Raised UnicodeDecodeError))
  \/ (exists raw text,
         target w = Some raw /\ utf_8_sig_decode false raw = Some text
         /\ readlines_target w = (w, Ok (splitlines text))).
Proof.
  unfold readlines_target, bind, read_all, or_raise.
  destruct (target w) as [raw|]; [|now left].
  right. destruct (utf_8_sig_decode false raw) as [text|] eqn:Ed.
  - right. exists raw, text. auto.
  - left. exists raw. auto.
Qed.

Lemma read_new_imgui_cases (w : world) :
  (replacement w = None /\ read_new_imgui w = (w, Raised OSError))
  \/ (exists raw, replacement w = Some raw /\ utf_8_decode true raw = None
                  /\ read_new_imgui w = (w, Raised UnicodeDecodeError))
  \/ (exists raw text,
         replacement w = Some raw /\ utf_8_decode true raw = Some text
         /\ read_new_imgui w = (w, Ok (universal_newlines text))).
Proof.
  unfold read_new_imgui, bind, read_all, or_raise.
  destruct (replacement w) as [raw|]; [|now left].
  right. destruct (utf_8_decode true raw) as [text|] eqn:Ed.
  - right. exists raw, text. auto.
  - left. exists raw. auto.
Qed.

(** An exception raised while loading ends the run. *)
Lemma main_target_raises (w : world) (e : exception) :
  readlines_target w = (w, Raised e) -> main w = (w, Raised e).
Proof. intros H. unfold main, bind. now rewrite H. Qed.

Lemma main_replacement_raises (w : world) (lines : list str)
      (e : exception) :
  readlines_target w = (w, Ok lines) ->
  read_new_imgui w = (w, Raised e) ->
  main w = (w, Raised e).
Proof.
  intros Hl Hn. unfold main. rewrite (bind_ok _ _ _ _ _ Hl).
  unfold bind. now rewrite Hn.
Qed.

(** X1. However the two files are, a run ends in one of four ways: with
    [OSError], [UnicodeDecodeError] or [TypeError], the files and the standard
    output being as they were, or normally, the target rewritten with a
    byte-order mark in front and the two messages printed. The write never
    fails on a character that cannot be encoded, since all that was decoded
    can be. *)
Theorem run_outcomes (w : world) :
  main w = (w, Raised OSError)
  \/ main w = (w, Raised UnicodeDecodeError)
  \/ main w = (w, Raised TypeError)
  \/ exists bs s e,
       main w = (World (Some (BOM_UTF8 ++ bs)) (replacement w)
                       (stdout w ++ [found_message (s + 1) (e + 1);
                                     success_message]),
                 Ok tt).
Proof.
  destruct (readlines_target_cases w)
    as [(_ & Hl) | [(raw & _ & _ & Hl) | (raw & text & _ & _ & Hl)]];
    [left; now apply main_target_raises
    | right; left; now apply main_target_raises |].
  destruct (read_new_imgui_cases w)
    as [(_ & Hn) | [(raw' & _ & _ & Hn) | (raw' & text' & _ & _ & Hn)]];
    [left; eapply main_replacement_raises; eassumption
    | right; left; eapply main_replacement_raises; eassumption |].
  right. right.
  destruct (locate (splitlines text)) as [[s|] [e|]] eqn:Hb.
  - right.
    destruct (main_success w _ _ s e Hl Hn Hb) as (bs & _ & Hrun).
    exists bs, s, e. exact Hrun.
  - left. rewrite (main_run w _ _ Hl Hn), Hb. reflexivity.
  - left. rewrite (main_run w _ _ Hl Hn), Hb. reflexivity.
  - left. rewrite (main_run w _ _ Hl Hn), Hb. reflexivity.
Qed.

(** X2. A file that is not there ends the run with [OSError] at the [open] of
    line 4 or line 8, the replacement being opened only once the target has
    been read; nothing is written or printed. *)
Theorem missing_file_raises_OSError (w : world) :
  target w = None
  \/ ((exists lines, readlines_target w = (w, Ok lines))
      /\ replacement w = None) ->
  main w = (w, Raised OSError).
Proof.
  intros [Ht | ((lines & Hl) & Hr)].
  - apply main_target_raises.
    unfold readlines_target, bind, read_all. now rewrite Ht.
  - apply (main_replacement_raises w lines); [assumption|].
    unfold read_new_imgui, bind, read_all. now rewrite Hr.
Qed.

Lemma missing_file_raises_OSError_witness :
  main missing_target_world = (missing_target_world, Raised OSError)
  /\ main missing_replacement_world
     = (missing_replacement_world, Raised OSError).
Proof.
  split.
  - apply (missing_file_raises_OSError missing_target_world).
    left. reflexivity.
  - apply (missing_file_raises_OSError missing_replacement_world).
    right. split; [eexists; vm_compute; reflexivity | reflexivity].
Defined.



(** X4. A run ends normally exactly when both files load and the loop finds
    both indices. *)
Theorem run_succeeds_iff (w : world) :
  (exists w', main w = (w', Ok tt))
  <-> exists lines new_imgui s e,
        readlines_target w = (w, Ok lines)
        /\ read_new_imgui w = (w, Ok new_imgui)
        /\ locate lines = Bounds (Some s) (Some e).
Proof.
  split.
  - intros (w' & Hrun).
    destruct (readlines_target_cases w)
      as [(_ & Hl) | [(raw & _ & _ & Hl) | (raw & text & _ & _ & Hl)]];
      try (rewrite (main_target_raises w _ Hl) in Hrun; discriminate).
    destruct (read_new_imgui_cases w)
      as [(_ & Hn) | [(raw' & _ & _ & Hn) | (raw' & text' & _ & _ & Hn)]];
      try (rewrite (main_replacement_raises w _ _ Hl Hn) in Hrun;
           discriminate).
    rewrite (main_run w _ _ Hl Hn) in Hrun.
    destruct (locate (splitlines text)) as [[s|] [e|]] eqn:Hb;
      try discriminate.
    exists (splitlines text), (universal_newlines text'), s, e. auto.
  - intros (lines & new_imgui & s & e & Hl & Hn & Hb).
    destruct (main_success w lines new_imgui s e Hl Hn Hb)
      as (bs & _ & Hrun).
    eexists. exact Hrun.
Qed.

(** ** More on the run: what the two ways of reading make of the bytes *)

Module ReadFacts.

Local Open Scope N_scope.

Lemma decode_lead_byte (final : bool) (b : byte) :
  lead_byte b -> utf_8_decode final [b] = incomplete final.
Proof.
  unfold lead_byte. intros H. cbn [utf_8_decode]. now ltb_cases.
Qed.

(** One more byte after a complete text, the first of a longer sequence:
    a decoder that was told the input is complete refuses it, the other
    one ignores it. *)
Lemma decode_trailing_lead_byte (final : bool) (bs : bytes) (text : str)
      (b : byte) :
  utf_8_decode true bs = Some text -> lead_byte b ->
  utf_8_decode final (bs ++ [b]) = if final then None else Some text.
Proof.
  intros Hd Hb.
  apply decode_inv in Hd as (enc & tail & He & -> & Hf & _).
  rewrite (Hf eq_refl), app_nil_r.
  rewrite (decode_app final text enc [b] He), decode_lead_byte by assumption.
  destruct final; simpl; [reflexivity | now rewrite app_nil_r].
Qed.

Lemma decode_not_final (bs : bytes) (text : str) :
  utf_8_decode true bs = Some text -> utf_8_decode false bs = Some text.
Proof.
  intros Hd. apply decode_inv in Hd as (enc & tail & He & -> & Hf & _).
  rewrite (Hf eq_refl), app_nil_r. now apply decode_encode.
Qed.

Lemma sig_decode_not_final (raw : bytes) (text : str) :
  utf_8_sig_decode true raw = Some text ->
  utf_8_sig_decode false raw = Some text.
Proof.
  unfold utf_8_sig_decode.
  destruct raw as [|b0 [|b1 [|b2 rest]]]; try apply decode_not_final.
  destruct (Byte.eqb b0 xef && Byte.eqb b1 xbb && Byte.eqb b2 xbf);
    apply decode_not_final.
Qed.

Lemma sig_decode_trailing_lead_byte (raw : bytes) (text : str) (b : byte) :
  utf_8_sig_decode true raw = Some text -> lead_byte b ->
  utf_8_sig_decode false (raw ++ [b]) = Some text.
Proof.
  intros Hd Hb. unfold utf_8_sig_decode in *.
  destruct raw as [|b0 [|b1 [|b2 rest]]]; cbn [app].
  - now apply (decode_trailing_lead_byte false []).
  - now apply (decode_trailing_lead_byte false [b0]).
  - destruct (Byte.eqb b0 xef && Byte.eqb b1 xbb && Byte.eqb b xbf) eqn:Eb.
    + exfalso. apply andb_true_iff in Eb as (_ & Eb).
      apply Byte.byte_dec_bl in Eb. subst b. unfold lead_byte in Hb.
      simpl in Hb. lia.
    + now apply (decode_trailing_lead_byte false [b0; b1]).
  - destruct (Byte.eqb b0 xef && Byte.eqb b1 xbb && Byte.eqb b2 xbf).
    + now apply (decode_trailing_lead_byte false rest).
    + now apply (decode_trailing_lead_byte false (b0 :: b1 :: b2 :: rest)).
Qed.

Lemma universal_newlines_no_CR_upto (n : nat) :
  forall s, (length s <= n)%nat -> ~ In 0x0D (universal_newlines s).
Proof.
  induction n as [|n IH]; intros s Hn;
    (destruct s as [|c s']; [intros [] | simpl in Hn; try lia]).
  cbn [universal_newlines].
  destruct (N.eqb_spec c 0x0D) as [->|Hc].
  - destruct s' as [|d s''].
    + simpl. intros [H|[]]. discriminate.
    + destruct (d =? 0x0A); intros [H|H]; try discriminate;
        revert H; apply IH; simpl in Hn |- *; lia.
  - intros [H|H]; [congruence|]. revert H. apply IH. lia.
Qed.

Lemma universal_newlines_no_CR (s : str) : ~ In 0x0D (universal_newlines s).
Proof. apply (universal_newlines_no_CR_upto (length s)). lia. Qed.

End ReadFacts.

Import ReadFacts.

(** X5. A target that ends with the first byte of a longer UTF-8 sequence is
    read, by the stream reader of lines 4 and 5, as the file without that
    byte: the same lines, no exception, and a run that ends normally on the
    intact file ends the same way here, the byte being gone from the file
    written. *)
Theorem truncated_target_read_as_intact (w : world) (raw : bytes)
        (text : str) (b : byte) :
  target w = Some raw ->
  utf_8_sig_decode true raw = Some text ->
  lead_byte b ->
  let w' := World (Some (raw ++ [b])) (replacement w) (stdout w) in
  readlines_target w = (w, Ok (splitlines text))
  /\ readlines_target w' = (w', Ok (splitlines text))
  /\ forall w1, main w = (w1, Ok tt) -> main w' = (w1, Ok tt).
Proof.
  intros Ht Hd Hb w'.
  assert (Hl : readlines_target w = (w, Ok (splitlines text))).
  { unfold readlines_target, bind, read_all, or_raise.
    now rewrite Ht, (sig_decode_not_final raw text Hd). }
  assert (Hl' : readlines_target w' = (w', Ok (splitlines text))).
  { unfold readlines_target, bind, read_all, or_raise. cbn [target w'].
    now rewrite (sig_decode_trailing_lead_byte raw text b Hd Hb). }
  split; [exact Hl|]. split; [exact Hl'|].
  intros w1 Hrun.
  destruct (read_new_imgui_cases w)
    as [(_ & Hn) | [(raw' & _ & _ & Hn) | (raw' & text' & Hr & Hd' & Hn)]];
    try (rewrite (main_replacement_raises w _ _ Hl Hn) in Hrun;
         discriminate).
  assert (Hn' : read_new_imgui w' = (w', Ok (universal_newlines text'))).
  { unfold read_new_imgui, bind, read_all, or_raise. cbn [replacement w'].
    now rewrite Hr, Hd'. }
  rewrite (main_run w _ _ Hl Hn) in Hrun.
  rewrite (main_run w' _ _ Hl' Hn').
  destruct (start_line (locate (splitlines text))) as [s|];
    [|discriminate].
  destruct (end_line (locate (splitlines text))) as [e|]; [|discriminate].
  destruct (utf_8_sig_encode _) as [bs|]; [|discriminate].
  exact Hrun.
Qed.

Lemma truncated_target_read_as_intact_witness :
  readlines_target truncated_target_world
  = (truncated_target_world, Ok renderer_lines)
  /\ main truncated_target_world = main renderer_world.
Proof.
  destruct (truncated_target_read_as_intact renderer_world
              (file_with_BOM renderer_cpp) (of_string renderer_cpp) xe3)
    as (_ & Hl & Hrun).
  - reflexivity.
  - vm_compute. reflexivity.
  - unfold lead_byte. simpl. lia.
  - split; [exact Hl|].
    assert (H : main renderer_world = (fst (main renderer_world), Ok tt))
      by (vm_compute; reflexivity).
    transitivity (fst (main renderer_world), @Ok unit tt);
      [exact (Hrun _ H) | symmetry; exact H].
Defined.

(** X6. The first byte of a longer UTF-8 sequence at the end of the
    replacement file ends the run with [UnicodeDecodeError]: the text file of
    lines 8 and 9 is decoded to its end, and nothing is written or printed. *)
Theorem truncated_replacement_rejected (w : world) (raw : bytes)
        (text : str) (b : byte) (lines : list str) :
  readlines_target w = (w, Ok lines) ->
  replacement w = Some raw ->
  utf_8_decode true raw = Some text ->
  lead_byte b ->
  let w' := World (target w) (Some (raw ++ [b])) (stdout w) in
  main w' = (w', Raised UnicodeDecodeError).
Proof.
  intros Hl Hr Hd Hb w'.
  apply (main_replacement_raises w' lines).
  - apply readlines_target_ok in Hl as (_ & raw0 & text0 & Ht & Hd0 & ->).
    unfold readlines_target, bind, read_all, or_raise. cbn [target w'].
    now rewrite Ht, Hd0.
  - unfold read_new_imgui, bind, read_all, or_raise. cbn [replacement w'].
    now rewrite (decode_trailing_lead_byte true raw text b Hd Hb).
Qed.

Lemma truncated_replacement_rejected_witness :
  main truncated_replacement_world
  = (truncated_replacement_world, Raised UnicodeDecodeError).
Proof.
  apply (truncated_replacement_rejected renderer_world (file short_imgui)
           (of_string short_imgui) xe3 renderer_lines).
  - vm_compute. reflexivity.
  - reflexivity.
  - vm_compute. reflexivity.
  - unfold lead_byte. simpl. lia.
Defined.

(** X7. The replacement comes out of the text file of lines 8 and 9 without a
    carriage return, every line end being read as a line feed, while the lines
    of the target, read through [codecs.open], are the decoded text cut in
    pieces, carriage returns included. *)
Theorem newlines_translated_in_replacement_only (w : world)
        (lines : list str) (new_imgui : str) :
  readlines_target w = (w, Ok lines) ->
  read_new_imgui w = (w, Ok new_imgui) ->
  ~ In 0x0D%N (new_imgui ++ LF)
  /\ exists raw text,
       target w = Some raw /\ utf_8_sig_decode false raw = Some text
       /\ join lines = text.
Proof.
  intros Hl Hn. split.
  - apply read_new_imgui_ok in Hn as (_ & raw & text & _ & _ & ->).
    intros H. apply in_app_or in H as [H|H].
    + now apply universal_newlines_no_CR in H.
    + destruct H as [H|[]]. discriminate.
  - apply readlines_target_ok in Hl as (_ & raw & text & Ht & Hd & ->).
    exists raw, text. split; [assumption|]. split; [assumption|].
    apply join_splitlines.
Qed.

Lemma newlines_translated_in_replacement_only_witness :
  read_new_imgui crlf_world
  = (crlf_world, Ok (of_string short_imgui ++ LF))
  /\ ~ In 0x0D%N ((of_string short_imgui ++ LF) ++ LF).
Proof.
  split; [vm_compute; reflexivity|].
  apply (newlines_translated_in_replacement_only crlf_world renderer_lines
           (of_string short_imgui ++ LF)); vm_compute; reflexivity.
Defined.

(** The lines of a list, cut at the two indices. *)
Lemma lines_cut (lines : list str) (s e : nat) :
  s <= e ->
  lines = firstn s lines ++ firstn (e + 1 - s) (skipn s lines)
          ++ skipn (e + 1) lines.
Proof.
  intros Hse.
  rewrite <- (firstn_skipn s lines) at 1. f_equal.
  rewrite <- (firstn_skipn (e + 1 - s) (skipn s lines)) at 1. f_equal.
  rewrite skipn_skipn. f_equal. lia.
Qed.

Lemma target_bytes_inv (w : world) (raw : bytes)
      (lines : list str) :
  target w = Some raw ->
  readlines_target w = (w, Ok lines) ->
  exists bom enc tail,
    (bom = [] \/ bom = BOM_UTF8)
    /\ length tail < 4
    /\ raw = bom ++ enc ++ tail
    /\ utf_8_encode (join lines) = Some enc.
Proof.
  intros Ht Hl.
  apply readlines_target_ok in Hl as (_ & raw' & text & Ht' & Hd & ->).
  assert (raw' = raw) as -> by congruence.
  apply sig_decode_inv in Hd as (bom & enc & tail & Hb & He & Hr & _ & Hlen).
  exists bom, enc, tail. rewrite join_splitlines. auto.
Qed.

(** X8. Encoding the lines read from the target gives the bytes of the file
    back: the file is an optional byte-order mark, the UTF-8 bytes of the
    joined lines and, at most, an incomplete sequence of less than four bytes
    at its end. What [writelines] would write for the same lines is the
    byte-order mark and those bytes. *)
Theorem target_bytes_round_trip (w : world) (raw : bytes)
        (lines : list str) :
  target w = Some raw ->
  readlines_target w = (w, Ok lines) ->
  exists bom enc tail,
    (bom = [] \/ bom = BOM_UTF8)
    /\ length tail < 4
    /\ raw = bom ++ enc ++ tail
    /\ utf_8_encode (join lines) = Some enc
    /\ utf_8_sig_encode (join lines) = Some (BOM_UTF8 ++ enc).
Proof.
  intros Ht Hl.
  destruct (target_bytes_inv w raw lines Ht Hl)
    as (bom & enc & tail & Hbom & Hlen & Hraw & Henc).
  exists bom, enc, tail. unfold utf_8_sig_encode. rewrite Henc. auto.
Qed.

Lemma target_bytes_round_trip_witness :
  exists bom enc tail,
    (bom = [] \/ bom = BOM_UTF8)
    /\ length tail < 4
    /\ file_with_BOM renderer_cpp ++ [xe3] = bom ++ enc ++ tail
    /\ utf_8_encode (join renderer_lines) = Some enc
    /\ utf_8_sig_encode (join renderer_lines) = Some (BOM_UTF8 ++ enc).
Proof.
  apply (target_bytes_round_trip truncated_target_world
           (file_with_BOM renderer_cpp ++ [xe3]) renderer_lines).
  - reflexivity.
  - vm_compute. reflexivity.
Defined.

(** X9. A run that ends normally keeps the bytes of the target outside the
    region: the file read is an optional byte-order mark, the bytes of the
    lines before the start index, those of the region, those of the lines
    after the end index and at most an incomplete sequence; the file written
    is the byte-order mark, the same bytes before, the bytes of the
    replacement and of a line feed, and the same bytes after. *)
Theorem bytes_outside_region_kept (w : world) (raw : bytes)
        (lines : list str) (new_imgui : str) (s e : nat) :
  target w = Some raw ->
  readlines_target w = (w, Ok lines) ->
  read_new_imgui w = (w, Ok new_imgui) ->
  locate lines = Bounds (Some s) (Some e) ->
  exists bom before region after tail inserted,
    (bom = [] \/ bom = BOM_UTF8)
    /\ length tail < 4
    /\ raw = bom ++ before ++ region ++ after ++ tail
    /\ utf_8_encode (join (firstn s lines)) = Some before
    /\ utf_8_encode (join (firstn (e + 1 - s) (skipn s lines)))
       = Some region
    /\ utf_8_encode (join (skipn (e + 1) lines)) = Some after
    /\ utf_8_encode (new_imgui ++ LF) = Some inserted
    /\ target (fst (main w))
       = Some (BOM_UTF8 ++ before ++ inserted ++ after).
Proof.
  intros Ht Hl Hn Hb.
  destruct (target_bytes_inv w raw lines Ht Hl)
    as (bom & enc & tail & Hbom & Hlen & Hraw & Henc).
  destruct (locate_bounds lines s e Hb) as (Hse & _).
  rewrite (lines_cut lines s e) in Henc by lia.
  unfold join in Henc. rewrite !concat_app in Henc.
  apply encode_app_inv in Henc as (before & rest & Hbefore & Hrest & ->).
  apply encode_app_inv in Hrest as (region & after & Hregion & Hafter & ->).
  destruct (main_success w lines new_imgui s e Hl Hn Hb)
    as (bs & Hbs & Hrun).
  unfold spliced, join in Hbs. rewrite !concat_app in Hbs.
  cbn [concat] in Hbs. rewrite app_nil_r in Hbs.
  apply encode_app_inv in Hbs as (before' & rest' & Hbefore' & Hrest' & ->).
  apply encode_app_inv in Hrest' as (inserted & after' & Hins & Hafter' & ->).
  unfold join. fold (@concat char) in *.
  assert (before' = before) as -> by congruence.
  assert (after' = after) as -> by congruence.
  exists bom, before, region, after, tail, inserted.
  rewrite Hrun. cbn [fst target].
  rewrite <- !app_assoc in Hraw.
  repeat (split; [assumption || reflexivity|]). reflexivity.
Qed.

Lemma bytes_outside_region_kept_witness :
  exists before after inserted,
    utf_8_encode (join (firstn 1 renderer_lines)) = Some before
    /\ utf_8_encode (join (skipn 14 renderer_lines)) = Some after
    /\ utf_8_encode (of_string short_imgui ++ LF) = Some inserted
    /\ target (fst (main renderer_world))
       = Some (BOM_UTF8 ++ before ++ inserted ++ after).
Proof.
  destruct (bytes_outside_region_kept renderer_world
              (file_with_BOM renderer_cpp) renderer_lines
              (of_string short_imgui) 1 13)
    as (bom & before & region & after & tail & inserted
        & _ & _ & _ & H1 & _ & H2 & H3 & H4);
    try (vm_compute; reflexivity).
  exists before, after, inserted. auto.
Defined.

(** ** More on the boundary scan *)

Section ScanPrefix.

Variable marker : str.
Variable min_gap : nat.

(** An iteration reads [lines] through its length and the element after
    the current one only. *)
Lemma loop_body_ext (lines lines' : list str) (i : nat) (line : str)
      (b : bounds) :
  (i + 1 <? length lines) = (i + 1 <? length lines') ->
  nth (i + 1) lines [] = nth (i + 1) lines' [] ->
  loop_body marker min_gap lines i line b
  = loop_body marker min_gap lines' i line b.
Proof. intros H1 H2. unfold loop_body. now rewrite H1, H2. Qed.

Lemma loop_body_no_break (lines : list str) (i : nat) (line : str)
      (b b' : bounds) :
  end_line b = None ->
  loop_body marker min_gap lines i line b = (b', false) ->
  end_line b' = None.
Proof.
  unfold loop_body. destruct b as [sl el]; simpl; intros ->.
  destruct (contains marker line); simpl.
  - destruct (is_lone_brace line && _);
      [destruct (_ && _)|]; intros [= <-]; reflexivity.
  - destruct sl as [s|]; simpl;
      [destruct (is_lone_brace line && _); [destruct (_ && _)|]|];
      intros [= <-]; reflexivity.
Qed.

(** A loop that stops at index [e] gives the same indices on every list
    that has the same elements up to index [e + 1]. *)
Lemma for_loop_prefix (lines lines' : list str) (e : nat) :
  forall (rest rest' pre : list str) (b : bounds),
    lines = pre ++ rest ->
    lines' = pre ++ rest' ->
    firstn (e + 2 - length pre) rest' = firstn (e + 2 - length pre) rest ->
    end_line b = None ->
    end_line (for_loop marker min_gap lines (length pre) rest b) = Some e ->
    for_loop marker min_gap lines' (length pre) rest' b
    = for_loop marker min_gap lines (length pre) rest b.
Proof.
  induction rest as [|line rest IH]; intros rest' pre b Hl Hl' Hf Hb He.
  - simpl in He. congruence.
  - destruct (for_loop_spec marker min_gap lines (line :: rest) pre b Hl Hb)
      as (_ & Hend & _).
    destruct (Hend e He) as (Hpe & _).
    replace (e + 2 - length pre) with (S (S (e - length pre))) in Hf by lia.
    destruct rest' as [|line' rest'']; [discriminate|].
    cbn [firstn] in Hf. injection Hf as -> Hf.
    cbn [for_loop] in *.
    assert (Hbody : loop_body marker min_gap lines' (length pre) line b
                    = loop_body marker min_gap lines (length pre) line b).
    { apply loop_body_ext; subst lines lines'.
      - rewrite !length_app. cbn [length].
        destruct rest, rest''; cbn [firstn length] in *;
          try discriminate; [reflexivity|].
        transitivity true; [|symmetry]; apply Nat.ltb_lt; lia.
      - replace (length pre + 1) with (length (pre ++ [line]))
          by (rewrite length_app; reflexivity).
        rewrite 2!(app_assoc pre [line]) || idtac.
        change (pre ++ line :: rest'') with (pre ++ [line] ++ rest'').
        change (pre ++ line :: rest) with (pre ++ [line] ++ rest).
        rewrite !app_assoc, !app_nth2, !Nat.sub_diag by lia.
        destruct rest, rest''; cbn [firstn] in Hf; try discriminate;
          [reflexivity|]. now injection Hf. }
    rewrite Hbody.
    destruct (loop_body marker min_gap lines (length pre) line b)
      as [b' [|]] eqn:Eb; [reflexivity|].
    specialize (IH rest'' (pre ++ [line]) b').
    rewrite length_app in IH. cbn [length] in IH.
    replace (length pre + 1) with (S (length pre)) in IH by lia.
    apply IH.
    + now rewrite <- app_assoc.
    + now rewrite <- app_assoc.
    + replace (e + 2 - S (length pre)) with (S (e - length pre)) by lia.
      exact Hf.
    + eapply loop_body_no_break; eassumption.
    + exact He.
Qed.

Lemma scan_prefix (lines lines' : list str) (e : nat) :
  end_line (scan marker min_gap lines) = Some e ->
  firstn (e + 2) lines' = firstn (e + 2) lines ->
  scan marker min_gap lines' = scan marker min_gap lines.
Proof.
  intros He Hf. unfold scan.
  apply (for_loop_prefix lines lines' e lines lines' []);
    try reflexivity; try assumption.
  simpl. now rewrite Nat.sub_0_r.
Qed.

End ScanPrefix.

Lemma first_marker_from_spec (marker : str) (lines : list str) :
  forall i j,
    first_marker_from marker i lines = Some (i + j)
    <-> j < length lines
        /\ contains marker (nth j lines []) = true
        /\ forall k, k < j -> contains marker (nth k lines []) = false.
Proof.
  induction lines as [|line rest IH]; intros i j; cbn [first_marker_from].
  - split; [discriminate | simpl; lia].
  - destruct (contains marker line) eqn:Hm.
    + split.
      * intros [= H]. assert (j = 0) as -> by lia. simpl.
        repeat split; [lia | assumption | lia].
      * intros (_ & _ & Hk). destruct j as [|j];
          [now rewrite Nat.add_0_r|].
        specialize (Hk 0 ltac:(lia)). simpl in Hk. congruence.
    + destruct j as [|j].
      * split.
        -- intros H. exfalso. rewrite Nat.add_0_r in H.
           assert (Hge : forall l a b, first_marker_from marker a l = Some b
                                       -> a <= b).
           { clear. induction l as [|x l IHl]; intros a b; simpl;
               [discriminate|].
             destruct (contains marker x); [intros [= <-]; lia|].
             intros H. apply IHl in H. lia. }
           apply Hge in H. lia.
        -- simpl. intros (_ & H & _). congruence.
      * replace (i + S j) with (S i + j) by lia. rewrite IH. simpl.
        split; intros (H1 & H2 & H3); repeat split; try lia; try assumption.
        -- intros [|k] Hk; [assumption | apply H3; lia].
        -- intros k Hk. apply (H3 (S k)). lia.
Qed.

(** X10. The loop reads nothing beyond the line after the end index: on every
    document with the same lines up to that one, it finds the same two
    indices. *)
Theorem scan_reads_up_to_lookahead (lines lines' : list str) (s e : nat) :
  locate lines = Bounds (Some s) (Some e) ->
  firstn (e + 2) lines' = firstn (e + 2) lines ->
  locate lines' = Bounds (Some s) (Some e).
Proof.
  intros Hb Hf. rewrite <- Hb. unfold locate.
  apply (scan_prefix MARKER MIN_GAP lines lines' e); [|exact Hf].
  fold (locate lines). now rewrite Hb.
Qed.

Lemma scan_reads_up_to_lookahead_witness :
  locate (firstn 15 renderer_lines ++ commented_lines)
  = Bounds (Some 1) (Some 13).
Proof.
  apply (scan_reads_up_to_lookahead renderer_lines
           (firstn 15 renderer_lines ++ commented_lines) 1 13);
    vm_compute; reflexivity.
Defined.

(** X11. When one line only contains the marker, the start index is the index
    of that line, which is also the first marker line. *)
Theorem single_marker_is_start (lines : list str) (j : nat) :
  j < length lines ->
  contains MARKER (nth j lines []) = true ->
  (forall k, k < length lines -> k <> j ->
             contains MARKER (nth k lines []) = false) ->
  start_line (locate lines) = Some j
  /\ first_marker MARKER lines = Some j.
Proof.
  intros Hj Hm Hone. split.
  - destruct (scan_start MARKER MIN_GAP lines)
      as [(Hs & Hno) | (s & Hs & Hlt & Hms & _)]; cbv zeta in *;
      change (scan MARKER MIN_GAP lines) with (locate lines) in *.
    + rewrite Hno in Hm; [discriminate|].
      unfold visited. now rewrite (end_needs_start lines Hs).
    + rewrite Hs. f_equal.
      destruct (Nat.eq_dec s j) as [|Hne]; [assumption|].
      rewrite (Hone s Hlt Hne) in Hms. discriminate.
  - apply (first_marker_from_spec MARKER lines 0 j).
    repeat split; try assumption.
    intros k Hk. apply Hone; lia.
Qed.

Lemma single_marker_is_start_witness :
  start_line (locate renderer_lines) = Some 1
  /\ first_marker MARKER renderer_lines = Some 1.
Proof.
  apply (single_marker_is_start renderer_lines 1).
  - vm_compute. repeat constructor.
  - vm_compute. reflexivity.
  - assert (Hlen : length renderer_lines = 17) by (vm_compute; reflexivity).
    rewrite Hlen. intros k Hk Hne.
    do 17 (destruct k as [|k]; [try congruence; vm_compute; reflexivity|]).
    lia.
Defined.
(** ** The string methods of the script *)

Lemma startswith_iff (p s : str) :
  startswith p s = true <-> exists t, s = p ++ t.
Proof.
  revert s; induction p as [|a p IH]; intros s; simpl.
  - split; [eauto | reflexivity].
  - destruct s as [|b s].
    + split; [discriminate | intros (t & H); discriminate].
    + unfold char_eqb. rewrite andb_true_iff, N.eqb_eq, IH. split.
      * intros (-> & t & ->). eauto.
      * intros (t & [= -> ->]). eauto.
Qed.

Lemma contains_iff (sub s : str) :
  contains sub s = true <-> exists pre post, s = pre ++ sub ++ post.
Proof.
  induction s as [|c s IH]; cbn [contains]; rewrite orb_true_iff,
    startswith_iff.
  - split.
    + intros [(t & H) | H]; [exists [], t; exact H | discriminate].
    + intros (pre & post & H). left.
      destruct pre; [exists post; exact H | discriminate].
  - rewrite IH. split.
    + intros [(t & H) | (pre & post & ->)];
        [exists [], t; exact H | exists (c :: pre), post; reflexivity].
    + intros (pre & post & H). destruct pre as [|d pre].
      * left. exists post. exact H.
      * right. injection H as -> ->. eauto.
Qed.

Lemma lstrip_app_ws (a s : str) : whitespace a -> lstrip (a ++ s) = lstrip s.
Proof.
  induction 1 as [|c a Hc _ IH]; simpl; [reflexivity|]. now rewrite Hc.
Qed.

Lemma lstrip_decomp (s : str) :
  exists a, whitespace a /\ s = a ++ lstrip s.
Proof.
  induction s as [|c s (a & Ha & IH)]; simpl.
  - exists []. split; [constructor | reflexivity].
  - destruct (is_space c) eqn:Hc.
    + exists (c :: a). split; [now constructor | simpl; congruence].
    + exists []. split; [constructor | reflexivity].
Qed.

Lemma lstrip_head (s r : str) (c : char) :
  lstrip s = c :: r -> is_space c = false.
Proof.
  induction s as [|d s IH]; simpl; [discriminate|].
  destruct (is_space d) eqn:Hd; [exact IH | congruence].
Qed.

Lemma lstrip_nil_iff (s : str) : lstrip s = [] <-> whitespace s.
Proof.
  split.
  - intros H. destruct (lstrip_decomp s) as (a & Ha & Hs).
    rewrite H, app_nil_r in Hs. now subst.
  - intros H. rewrite <- (app_nil_r s). now rewrite lstrip_app_ws.
Qed.

Lemma whitespace_rev (s : str) : whitespace s <-> whitespace (rev s).
Proof.
  unfold whitespace. rewrite !Forall_forall.
  split; intros H c Hc; apply H; [now apply in_rev | now apply in_rev in Hc].
Qed.

Lemma rstrip_app_ws (s b : str) : whitespace b -> rstrip (s ++ b) = rstrip s.
Proof.
  intros Hb. unfold rstrip. rewrite rev_app_distr, lstrip_app_ws;
    [reflexivity | now apply whitespace_rev in Hb].
Qed.

Lemma rstrip_snoc (s : str) (c : char) :
  is_space c = false -> rstrip (s ++ [c]) = s ++ [c].
Proof.
  intros Hc. unfold rstrip. rewrite rev_app_distr. simpl. rewrite Hc.
  change (c :: rev s) with (rev [c] ++ rev s).
  now rewrite <- rev_app_distr, rev_involutive.
Qed.

Lemma rstrip_decomp (s : str) :
  exists b, whitespace b /\ s = rstrip s ++ b.
Proof.
  destruct (lstrip_decomp (rev s)) as (a & Ha & Hs).
  exists (rev a). split; [now apply whitespace_rev in Ha|].
  unfold rstrip. rewrite <- rev_app_distr, <- Hs. now rewrite rev_involutive.
Qed.

Lemma rstrip_last (s r : str) (c : char) :
  rstrip s = r ++ [c] -> is_space c = false.
Proof.
  unfold rstrip. intros H. apply (f_equal (@rev char)) in H.
  rewrite rev_involutive, rev_app_distr in H. simpl in H.
  now apply lstrip_head in H.
Qed.

Lemma rstrip_nil_iff (s : str) : rstrip s = [] <-> whitespace s.
Proof.
  unfold rstrip. rewrite whitespace_rev, <- lstrip_nil_iff. split.
  - intros H. apply (f_equal (@rev char)) in H.
    now rewrite rev_involutive in H.
  - intros ->. reflexivity.
Qed.

(** What [rstrip] leaves is empty or ends with a character that is not
    white space. *)
Lemma rstrip_cases (s : str) :
  (rstrip s = [] /\ whitespace s)
  \/ exists r c, rstrip s = r ++ [c] /\ is_space c = false.
Proof.
  remember (rstrip s) as t eqn:E. symmetry in E.
  destruct t as [|x l _] using rev_ind.
  - left. split; [reflexivity | now apply rstrip_nil_iff].
  - right. exists l, x. split; [reflexivity|]. now apply rstrip_last in E.
Qed.

Lemma rstrip_app_nonws (x r : str) :
  ~ whitespace r -> rstrip (x ++ r) = x ++ rstrip r.
Proof.
  intros Hr. destruct (rstrip_decomp r) as (b & Hb & Hd).
  destruct (rstrip_cases r) as [(_ & H) | (r' & c & E & Hc)]; [tauto|].
  rewrite E in *. rewrite Hd at 1.
  rewrite !app_assoc, rstrip_app_ws by assumption.
  now rewrite rstrip_snoc.
Qed.

Lemma rstrip_fixed (r : str) (c : char) :
  is_space c = false ->
  forall b, whitespace b -> rstrip (r ++ [c] ++ b) = r ++ [c].
Proof.
  intros Hc b Hb. now rewrite app_assoc, rstrip_app_ws, rstrip_snoc.
Qed.

(** [strip] removes white space at both ends and nothing else. *)
Lemma strip_decomp (s : str) :
  exists a b, whitespace a /\ whitespace b /\ s = a ++ strip s ++ b.
Proof.
  destruct (lstrip_decomp s) as (a & Ha & Hs).
  destruct (rstrip_decomp (lstrip s)) as (b & Hb & Hl).
  exists a, b. unfold strip. rewrite <- Hl. auto.
Qed.

Lemma strip_nil_iff (s : str) : strip s = [] <-> whitespace s.
Proof.
  unfold strip. rewrite rstrip_nil_iff. split.
  - intros H. destruct (lstrip_decomp s) as (a & Ha & E).
    rewrite E. apply Forall_app. split; assumption.
  - intros H. apply lstrip_nil_iff in H. rewrite H. constructor.
Qed.

Lemma strip_app_ws (a s : str) : whitespace a -> strip (a ++ s) = strip s.
Proof. intros Ha. unfold strip. now rewrite lstrip_app_ws. Qed.

Lemma strip_nonspace_head (c : char) (s : str) :
  is_space c = false -> strip (c :: s) = rstrip (c :: s).
Proof. intros Hc. unfold strip. simpl. now rewrite Hc. Qed.

(** [strip(s).startswith(p)] for a prefix [p] that neither starts nor ends
    with white space. *)
Lemma startswith_strip_tight (c0 cl : char) (p' q s : str) :
  is_space c0 = false -> is_space cl = false -> c0 :: p' = q ++ [cl] ->
  startswith (c0 :: p') (strip s) = true
  <-> exists a r, whitespace a /\ s = a ++ (c0 :: p') ++ r.
Proof.
  intros H0 Hl Hp. rewrite startswith_iff. split.
  - intros (t & Ht). destruct (strip_decomp s) as (a & b & Ha & Hb & Hs).
    exists a, (t ++ b). split; [assumption|].
    rewrite Hs at 1. rewrite Ht. now rewrite <- app_assoc.
  - intros (a & r & Ha & ->).
    rewrite strip_app_ws by assumption.
    cbn [app]. rewrite strip_nonspace_head by assumption.
    destruct (rstrip_cases r) as [(_ & Hr) | (r' & c & E & Hc)].
    + exists []. change (c0 :: p' ++ r) with ((c0 :: p') ++ r).
      rewrite rstrip_app_ws by assumption.
      rewrite Hp, rstrip_snoc by assumption. now rewrite app_nil_r.
    + exists (rstrip r). change (c0 :: p' ++ r) with ((c0 :: p') ++ r).
      apply rstrip_app_nonws. intros Hr. apply rstrip_nil_iff in Hr.
      rewrite Hr in E. now destruct r'.
Qed.

(** [strip(s).startswith(p)] for a prefix [p] that ends with white space:
    something other than white space has to follow. *)
Lemma startswith_strip_open (c0 sp : char) (p' q s : str) :
  is_space c0 = false -> is_space sp = true -> c0 :: p' = q ++ [sp] ->
  startswith (c0 :: p') (strip s) = true
  <-> exists a r, whitespace a /\ ~ whitespace r /\ s = a ++ (c0 :: p') ++ r.
Proof.
  intros H0 Hsp Hp. rewrite startswith_iff. split.
  - intros (t & Ht). destruct (strip_decomp s) as (a & b & Ha & Hb & Hs).
    exists a, (t ++ b). split; [assumption|]. split.
    + intros Hw. apply Forall_app in Hw as (Hw & _).
      destruct (rstrip_cases (lstrip s)) as [(E & _) | (r' & c & E & Hc)];
        fold (strip s) in E; rewrite Ht in E; [discriminate|].
      destruct t as [|x t'] using rev_ind.
      * rewrite app_nil_r, Hp in E. apply app_inj_tail in E as (_ & <-).
        congruence.
      * rewrite app_assoc in E.
        apply app_inj_tail in E as (_ & <-).
        apply Forall_app in Hw as (_ & Hw). inversion Hw; congruence.
    + rewrite Hs at 1. rewrite Ht. now rewrite <- app_assoc.
  - intros (a & r & Ha & Hr & ->).
    rewrite strip_app_ws by assumption.
    cbn [app]. rewrite strip_nonspace_head by assumption.
    exists (rstrip r). change (c0 :: p' ++ r) with ((c0 :: p') ++ r).
    now apply rstrip_app_nonws.
Qed.

(** X12. The test of line 19, [line.strip() == '}'], holds for the lines made
    of one closing brace with white space (line end included) around it, and
    for no other line. *)
Theorem lone_brace_iff (line : str) :
  is_lone_brace line = true
  <-> exists a b, whitespace a /\ whitespace b
                  /\ line = a ++ of_string "}" ++ b.
Proof.
  unfold is_lone_brace. rewrite str_eqb_eq. split.
  - intros H. destruct (strip_decomp line) as (a & b & Ha & Hb & Hs).
    exists a, b. rewrite <- H. auto.
  - intros (a & b & Ha & Hb & ->).
    rewrite strip_app_ws by assumption.
    change (of_string "}" ++ b) with (125%N :: b).
    rewrite strip_nonspace_head by reflexivity.
    change (125%N :: b) with ([] ++ [125%N] ++ b).
    now rewrite rstrip_fixed.
Qed.

(** X13. The look-ahead of lines 21 to 23 accepts the next line when it is
    white space only, when it is [//===] after optional white space, or when
    it is [void] and a space after optional white space, followed by something
    that is not white space. *)
Theorem next_item_iff (next : str) :
  looks_like_next_item next = true
  <-> whitespace next
      \/ (exists a r, whitespace a /\ next = a ++ of_string "//===" ++ r)
      \/ (exists a r, whitespace a /\ ~ whitespace r
                      /\ next = a ++ of_string "void " ++ r).
Proof.
  unfold looks_like_next_item.
  rewrite !orb_true_iff, str_eqb_eq, strip_nil_iff.
  change (of_string "//===") with [47; 47; 61; 61; 61]%N.
  change (of_string "void ") with [118; 111; 105; 100; 32]%N.
  rewrite (startswith_strip_tight 47 61 [47; 61; 61; 61] [47; 47; 61; 61])%N
    by reflexivity.
  rewrite (startswith_strip_open 118 32 [111; 105; 100; 32]
             [118; 111; 105; 100])%N by reflexivity.
  tauto.
Qed.

(** X14. The test of line 16 holds exactly for the lines in which the marker
    occurs as a run of consecutive characters, wherever in the line. *)
Theorem marker_line_iff (line : str) :
  contains MARKER line = true
  <-> exists pre post, line = pre ++ MARKER ++ post.
Proof. apply contains_iff. Qed.

(** ** More on [splitlines] *)

Lemma splitlines_from_plain (a : str) :
  forall cur rest,
    Forall (fun c => is_linebreak c = false /\ c <> 0x0D%N) a ->
    splitlines_from cur (a ++ rest) = splitlines_from (rev a ++ cur) rest.
Proof.
  induction a as [|c a IH]; intros cur rest Ha; [reflexivity|].
  inversion_clear Ha as [|? ? (Hc & Hr) Ha'].
  cbn [app splitlines_from].
  apply N.eqb_neq in Hr. rewrite Hr, Hc, IH by assumption.
  simpl. now rewrite <- app_assoc.
Qed.

(** X15. The lines [readlines] returns, one after the other: a line runs up to
    and including the first line break, which is a carriage return with the
    line feed that follows it if any, or one of the nine other characters at
    which [str.splitlines] breaks, form feed among them; what is left after
    the last line break is a last line, unless it is empty. *)
Theorem splitlines_first_line (a b : str) :
  Forall (fun c => is_linebreak c = false /\ c <> 0x0D%N) a ->
  (forall c, is_linebreak c = true ->
             splitlines (a ++ c :: b) = (a ++ [c]) :: splitlines b)
  /\ splitlines (a ++ 0x0D :: 0x0A :: b)%N
     = (a ++ [0x0D; 0x0A]%N) :: splitlines b
  /\ (forall d, d <> 0x0A%N ->
                splitlines (a ++ 0x0D%N :: d :: b)
                = (a ++ [0x0D%N]) :: splitlines (d :: b))
  /\ splitlines (a ++ [0x0D%N]) = [a ++ [0x0D%N]]
  /\ splitlines a = match a with [] => [] | _ :: _ => [a] end.
Proof.
  intros Ha. unfold splitlines.
  split; [|split; [|split; [|split]]].
  - intros c Hc. rewrite splitlines_from_plain by assumption.
    cbn [splitlines_from]. rewrite Hc.
    destruct (N.eqb_spec c 0x0D) as [->|_]; [discriminate Hc|].
    cbn [rev]. now rewrite app_nil_r, rev_involutive.
  - rewrite splitlines_from_plain by assumption.
    cbn [splitlines_from rev N.eqb Pos.eqb].
    now rewrite app_nil_r, rev_involutive, <- app_assoc.
  - intros d Hd. rewrite splitlines_from_plain by assumption.
    cbn [splitlines_from]. apply N.eqb_neq in Hd.
    rewrite N.eqb_refl, Hd. cbn [rev].
    now rewrite app_nil_r, rev_involutive.
  - rewrite splitlines_from_plain by assumption.
    cbn [splitlines_from rev N.eqb Pos.eqb].
    now rewrite app_nil_r, rev_involutive.
  - rewrite <- (app_nil_r a) at 1.
    rewrite splitlines_from_plain by assumption.
    cbn [splitlines_from]. rewrite app_nil_r.
    destruct a as [|c a]; [reflexivity|].
    destruct (rev (c :: a)) eqn:E.
    + apply (f_equal (@length char)) in E. rewrite length_rev in E.
      discriminate.
    + now rewrite <- E, rev_involutive.
Qed.

Lemma splitlines_first_line_witness :
  splitlines (of_string "}" ++ 0x0C%N :: of_string "void f();")
  = (of_string "}" ++ [0x0C%N]) :: splitlines (of_string "void f();").
Proof.
  apply (splitlines_first_line (of_string "}") (of_string "void f();")).
  - vm_compute. repeat constructor; discriminate.
  - reflexivity.
Defined.
